(** * bgp-speaker: a shallow embedding of the speaker's control logic

    The development follows the three subsystems of the program:
    - [internal/speaker/healthcheck.go]: the HTTP health probe and the
      debouncing loop of [HealthCheck.Run];
    - the BGP controller of the same package ([Speaker.setup],
      [Speaker.setupPolicies], [Speaker.addPath], ...), which drives the
      embedded GoBGP server;
    - [internal/speaker/update_fib.go]: the RIB-to-FIB reconciler talking
      rtnetlink.

    External libraries (GoBGP, rtnetlink, net/http, net) are modelled by
    their observable interface: every request the program sends is
    appended to a history, and the reply is given by an oracle over that
    history. *)

From stdpp Require Import base option list strings pretty gmap.
From Stdlib Require Import ZArith Ascii Lia.

Local Open Scope string_scope.
Local Open Scope list_scope.
Local Open Scope Z_scope.

(* ===================================================================== *)
(** * Part I: definitions                                                 *)
(* ===================================================================== *)

(** ** Go values shared by all files *)

(** Go [error] values.  [Wrapf] is [fmt.Errorf("<prefix>: %w", e)];
    [Errorf] is an error built from a message alone, which is also how
    errors coming out of a library are represented. *)
Inductive error : Type :=
| Errorf (msg : string)
| Wrapf (prefix : string) (e : error)
| ErrUnsupported.

(** [errors.Unwrap] iterated: the innermost error of a chain of [%w]. *)
Fixpoint root_cause (e : error) : error :=
  match e with
  | Wrapf _ e' => root_cause e'
  | _ => e
  end.

(** Go's [int] on the 64-bit targets of the program: [x + y] wraps. *)
Definition int_wrap (z : Z) : Z := (z + 2 ^ 63) mod 2 ^ 64 - 2 ^ 63.
Definition int_add (x y : Z) : Z := int_wrap (x + y).

(** ** healthcheck.go *)

Definition healthyThreshold : Z := 3.
Definition interval : Z := 1.
Definition timeoutSeconds : Z := 1.

Inductive Status : Type := Unhealthy | Healthy.

#[global] Instance Status_eq_dec : EqDecision Status.
Proof. solve_decision. Defined.

Definition Status_String (s : Status) : string :=
  if decide (s = Healthy) then "Healthy" else "Unhealthy".

(** The fields of [HealthCheck] that hold data.  [u] is the parsed URL,
    kept as the text [u.String()] yields; the HTTP client and the two
    callbacks are the environment of a tick (see [tick_env]). *)
Record HealthCheck : Type := mkHealthCheck {
  status : Status;
  u : string;
  okCounter : Z
}.

(** [NewHealthCheck]: the result of [url.Parse] is passed in. *)
Definition NewHealthCheck (parsed : error + string) : error + HealthCheck :=
  match parsed with
  | inl err => inl (Wrapf "HealthCheck: parse url error" err)
  | inr url => inr {| status := Unhealthy; u := url; okCounter := 0 |}
  end.

(** What [hc.client.Do] and the draining of the body can yield. *)
Record http_response : Type := mkResponse {
  StatusCode : Z;
  body_read : option error   (* the error of [io.Copy(io.Discard, resp.Body)] *)
}.

Definition StatusOK : Z := 200.

(** [HealthCheck.Do], as a function of what the transport answers. *)
Definition Do (transport : error + http_response) : option error :=
  match transport with
  | inl err => Some (Wrapf "HealthCheck: http get failed" err)
  | inr resp =>
      match body_read resp with
      | Some err => Some (Wrapf "HealthCheck: read response failed" err)
      | None =>
          if decide (StatusCode resp ≠ StatusOK)
          then Some (Errorf "HealthCheck: unexpected status code")
          else None
      end
  end.

(** The two callbacks of the checker. *)
Inductive callback : Type := cbHealthy | cbUnhealthy.

#[global] Instance callback_eq_dec : EqDecision callback.
Proof. solve_decision. Defined.

(** The environment of one tick of the loop: what the probe returns and
    what the callback returns should the tick invoke one. *)
Record tick_env : Type := mkTick {
  probe : option error;      (* [err := hc.Do(ctx)] *)
  cb_result : option error   (* the value of [hc.cbHealthy(ctx)] or [hc.cbUnhealthy(ctx)] *)
}.

(** The body of the [case <-ticker.C] branch of [HealthCheck.Run]: the new
    state and the callbacks invoked during the tick. *)
Definition tick (e : tick_env) (hc : HealthCheck) : HealthCheck * list callback :=
  if bool_decide (probe e ≠ None ∧ status hc = Healthy) then
    match cb_result e with
    | Some _ => (hc, [cbUnhealthy])
    | None =>
        ({| status := Unhealthy; u := u hc; okCounter := 0 |}, [cbUnhealthy])
    end
  else if bool_decide (probe e = None ∧ status hc = Unhealthy) then
    if bool_decide (okCounter hc >= healthyThreshold) then
      match cb_result e with
      | Some _ => (hc, [cbHealthy])
      | None =>
          ({| status := Healthy; u := u hc; okCounter := okCounter hc |},
           [cbHealthy])
      end
    else
      ({| status := status hc; u := u hc;
          okCounter := int_add (okCounter hc) 1 |}, [])
  else (hc, []).

(** What the [select] of the loop receives. *)
Inductive event : Type :=
| CtxDone
| Tick (e : tick_env).

(** The [for { select { ... } }] loop over the events delivered so far.
    The result is the state, the callbacks invoked tick by tick, and the
    value returned ([None] while the loop is still waiting). *)
Fixpoint Run_loop (evs : list event) (hc : HealthCheck)
  : HealthCheck * list (list callback) * option (option error) :=
  match evs with
  | [] => (hc, [], None)
  | CtxDone :: _ => (hc, [], Some None)
  | Tick e :: evs' =>
      let '(hc1, cbs) := tick e hc in
      let '(hc2, rest, ret) := Run_loop evs' hc1 in
      (hc2, cbs :: rest, ret)
  end.

Definition is_CtxDone (ev : event) : bool :=
  match ev with CtxDone => true | Tick _ => false end.

(** [HealthCheck.Run]: with an empty URL the loop is never entered. *)
Definition Run (evs : list event) (hc : HealthCheck)
  : HealthCheck * list (list callback) * option (option error) :=
  if decide (u hc = "") then
    (hc, [], if existsb is_CtxDone evs then Some None else None)
  else Run_loop evs hc.

(** States of the checker that a run can be in: the one built by
    [NewHealthCheck], and those reached from it by ticks. *)
Inductive reachable : HealthCheck → Prop :=
| reachable_new parsed hc :
    NewHealthCheck parsed = inr hc → reachable hc
| reachable_tick e hc :
    reachable hc → reachable (tick e hc).1.

(** A tick whose probe succeeds and whose callback, if invoked, succeeds. *)
Definition ok_tick : tick_env := {| probe := None; cb_result := None |}.
Definition failed_probe : tick_env :=
  {| probe := Some (Errorf "HealthCheck: unexpected status code");
     cb_result := None |}.

(** The checker as [Speaker.Run] creates it, for a configured URL. *)
Definition hc0 : HealthCheck :=
  {| status := Unhealthy; u := "http://127.0.0.1:8080/healthz"; okCounter := 0 |}.

(** The state after [n] ticks of a run whose probes all succeed. *)
Definition after_ok_ticks (n : nat) : HealthCheck :=
  (Run_loop (Tick <$> replicate n ok_tick) hc0).1.1.

(** Case analysis of one tick, by the branch of the loop body taken. *)
Inductive tick_spec (e : tick_env) (hc : HealthCheck)
  : HealthCheck * list callback → Prop :=
| tick_withdraw :
    probe e ≠ None → status hc = Healthy → cb_result e = None →
    tick_spec e hc
      ({| status := Unhealthy; u := u hc; okCounter := 0 |}, [cbUnhealthy])
| tick_withdraw_failed :
    probe e ≠ None → status hc = Healthy → cb_result e ≠ None →
    tick_spec e hc (hc, [cbUnhealthy])
| tick_advertise :
    probe e = None → status hc = Unhealthy →
    okCounter hc >= healthyThreshold → cb_result e = None →
    tick_spec e hc
      ({| status := Healthy; u := u hc; okCounter := okCounter hc |},
       [cbHealthy])
| tick_advertise_failed :
    probe e = None → status hc = Unhealthy →
    okCounter hc >= healthyThreshold → cb_result e ≠ None →
    tick_spec e hc (hc, [cbHealthy])
| tick_count :
    probe e = None → status hc = Unhealthy →
    okCounter hc < healthyThreshold →
    tick_spec e hc
      ({| status := Unhealthy; u := u hc;
          okCounter := int_add (okCounter hc) 1 |}, [])
| tick_idle_unhealthy :
    probe e ≠ None → status hc = Unhealthy →
    tick_spec e hc (hc, [])
| tick_idle_healthy :
    probe e = None → status hc = Healthy →
    tick_spec e hc (hc, []).

(** The invariant of the loop: the counter stays within [0, 3], and the
    status is Healthy only with the counter at the threshold. *)
Definition hc_inv (hc : HealthCheck) : Prop :=
  0 ≤ okCounter hc ≤ healthyThreshold ∧
  (status hc = Healthy → okCounter hc = healthyThreshold).

(** ** The GoBGP API as the speaker uses it *)

(** [config.go], the later of the two versions of [Config] (the one with
    [HealthCheckURL], which [Speaker.setup] reads). *)
Record Neighbor : Type := mkNeighbor {
  Address : string;
  PeerASN : Z          (* the field [ASN] of a neighbor, a [uint32] *)
}.

Record Config : Type := mkConfig {
  AnycastIP : string;
  ASN : Z;
  Neighbors : list Neighbor;
  HealthCheckURL : string;
  UpdateFIBMetric : option Z
}.

(** The constants of the controller. *)
Definition defaultRoute : string := "default-route".
Definition uplinks : string := "uplinks".
Definition defaultRoutePolicy : string := "only-default-route".
Definition onlyAnycastIP : string := "only-anycast-ip".
Definition anycastIP : string := "anycast-ip".
Definition global : string := "global".

(** Protobuf messages the program packs into, or reads out of, an
    [anypb.Any]. *)
Inductive message_name : Type :=
| name_IPAddressPrefix | name_OriginAttribute | name_NextHopAttribute
| name_other.

#[global] Instance message_name_eq_dec : EqDecision message_name.
Proof. solve_decision. Defined.

Inductive message : Type :=
| IPAddressPrefix (Prefix : string) (PrefixLen : Z)
| OriginAttribute (Origin : Z)
| NextHopAttribute (NextHop : string)
| other_message.

Definition name_of (m : message) : message_name :=
  match m with
  | IPAddressPrefix _ _ => name_IPAddressPrefix
  | OriginAttribute _ => name_OriginAttribute
  | NextHopAttribute _ => name_NextHopAttribute
  | other_message => name_other
  end.

(** An [anypb.Any]: either the packed form of a message, or bytes whose
    type URL names a message they do not decode to (possible for a value
    that came from a peer; [UnmarshalTo] then returns an error). *)
Inductive Any : Type :=
| packed (m : message)
| undecodable (n : message_name) (err : error).

(** [a.MessageIs(m)]: the type URL of [a] names the message type [n]. *)
Definition MessageIs (a : Any) (n : message_name) : bool :=
  match a with
  | packed m => bool_decide (name_of m = n)
  | undecodable n' _ => bool_decide (n' = n)
  end.

(** [anypb.New]: packing a message the program built itself. *)
Definition anypb_New (m : message) : error + Any := inr (packed m).

Definition BGP_ORIGIN_ATTR_TYPE_IGP : Z := 0.

Inductive Family_Afi : Type := Family_AFI_UNKNOWN | Family_AFI_IP.
Inductive Family_Safi : Type := Family_SAFI_UNKNOWN | Family_SAFI_UNICAST.

Record Family : Type := mkFamily { Afi : Family_Afi; Safi : Family_Safi }.

Record Path : Type := mkPath {
  path_Family : option Family;
  Nlri : option Any;
  Pattrs : list Any
}.

Record Destination : Type := mkDestination {
  Prefix : string;
  Paths : list Path
}.

Inductive DefinedType : Type := DefinedType_PREFIX | DefinedType_NEIGHBOR.

Record api_Prefix : Type := mkPrefix {
  IpPrefix : string;
  MaskLengthMin : Z;
  MaskLengthMax : Z
}.

Record DefinedSet : Type := mkDefinedSet {
  ds_DefinedType : DefinedType;
  ds_Name : string;
  ds_List : list string;
  ds_Prefixes : list api_Prefix
}.

Inductive MatchSet_Type : Type := MatchSet_ANY | MatchSet_ALL | MatchSet_INVERT.

Record MatchSet : Type := mkMatchSet {
  ms_Type : MatchSet_Type;
  ms_Name : string
}.

Inductive Conditions_RouteType : Type :=
| Conditions_ROUTE_TYPE_NONE
| Conditions_ROUTE_TYPE_INTERNAL
| Conditions_ROUTE_TYPE_EXTERNAL
| Conditions_ROUTE_TYPE_LOCAL.

Record Conditions : Type := mkConditions {
  PrefixSet : option MatchSet;
  NeighborSet : option MatchSet;
  RouteType : Conditions_RouteType
}.

Inductive RouteAction : Type :=
| RouteAction_NONE | RouteAction_ACCEPT | RouteAction_REJECT.

Record Statement : Type := mkStatement {
  st_Name : string;
  st_Conditions : Conditions;
  st_RouteAction : RouteAction      (* [Actions.RouteAction] *)
}.

Record Policy : Type := mkPolicy {
  Name : string;
  Statements : list Statement
}.

Inductive PolicyDirection : Type :=
| PolicyDirection_UNKNOWN | PolicyDirection_IMPORT | PolicyDirection_EXPORT.

Record PolicyAssignment : Type := mkPolicyAssignment {
  pa_Name : string;
  Direction : PolicyDirection;
  Policies : list Policy;
  DefaultAction : RouteAction
}.

Inductive TableType : Type := TableType_GLOBAL | TableType_LOCAL.

(** The requests the speaker sends to the embedded server. *)
Inductive request : Type :=
| StartBgp (Asn : Z) (RouterId : string) (ListenPort : Z)
| StopBgp
| AddPeer (NeighborAddress : string) (PeerAsn : Z)
| AddDefinedSet (s : DefinedSet)
| AddPolicy (p : Policy) (ReferExistingStatements : bool)
| AddPolicyAssignment (a : PolicyAssignment)
| AddPath (p : Path)
| DeletePath (p : Path)
| ListPath (t : TableType) (f : Family).

(** The embedded [server.BgpServer], seen from the speaker: the requests
    received so far, the error (if any) it answers a request with, and the
    destinations it hands to the callback of [ListPath]. *)
Record BgpServer : Type := mkBgpServer {
  history : list request;
  answer : list request → request → option error;
  table : list request → list Destination
}.

(** One call into the server: the request is recorded, the answer is the
    server's. *)
Definition call (r : request) (s : BgpServer) : option error * BgpServer :=
  (answer s (history s) r,
   {| history := history s ++ [r]; answer := answer s; table := table s |}).

(** ** rtnetlink as the reconciler uses it *)

(** The part of Go's [net] package the reconciler calls.  [IP] is
    [net.IP]; [IP_nil] is the nil slice. *)
Class GoNet : Type := mkGoNet {
  IP : Type;
  IP_nil : IP;
  IP_String : IP → string;       (* [ip.String()] *)
  ParseIP : string → IP;         (* [net.ParseIP], nil when the text is no address *)
  To4 : IP → IP;                 (* [ip.To4()], nil when the address is not IPv4 *)
  IP_is_nil : IP → bool          (* [ip == nil] *)
}.

Section Netlink.
Context `{GoNet}.

(** [rtnetlink.NextHop]; the program leaves [Hop] at its zero value. *)
Record NextHop : Type := mkNextHop {
  nh_Gateway : IP
}.

(** [rtnetlink.RouteAttributes]: the attributes the program reads or
    sets.  [Multipath] is a slice; [None] is the nil slice. *)
Record RouteAttributes : Type := mkRouteAttributes {
  Gateway : IP;
  Priority : Z;
  Multipath : option (list NextHop)
}.

(** [rtnetlink.RouteMessage]; the fields the program never mentions stay
    at their zero value and are left out. *)
Record RouteMessage : Type := mkRouteMessage {
  rm_Family : Z;
  DstLength : Z;
  Table : Z;
  Protocol : Z;
  Scope : Z;
  rm_Type : Z;
  Attributes : RouteAttributes
}.

(** [&rtnetlink.RouteMessage{}] *)
Definition RouteMessage_zero : RouteMessage :=
  {| rm_Family := 0; DstLength := 0; Table := 0; Protocol := 0; Scope := 0;
     rm_Type := 0;
     Attributes := {| Gateway := IP_nil; Priority := 0; Multipath := None |} |}.

(** A [netlink.Message] coming back from the socket: the type assertion
    to a pointer to [rtnetlink.RouteMessage] succeeds on the first kind only. *)
Inductive nl_message : Type :=
| msg_route (r : RouteMessage)
| msg_other.

(** One [conn.Execute(m, family, flags)]. *)
Record nl_request : Type := mkRequest {
  req_message : RouteMessage;
  req_type : Z;
  req_flags : Z
}.

(** The rtnetlink connection: the requests executed so far and the
    kernel's reply to a request after a given history. *)
Record Conn : Type := mkConn {
  executed : list nl_request;
  kernel : list nl_request → nl_request → error + list nl_message
}.

Definition Execute (m : RouteMessage) (type flags : Z) (c : Conn)
  : (error + list nl_message) * Conn :=
  let r := {| req_message := m; req_type := type; req_flags := flags |} in
  (kernel c (executed c) r,
   {| executed := executed c ++ [r]; kernel := kernel c |}).

(** The [Speaker]: the fields of the struct that the modelled methods
    read.  [conn] (the rtnetlink connection) and [linuxRouteMetric] (the
    priority of the speaker's route) are the two fields the methods of
    [update_fib.go] use; the version of the struct that declares them is
    not among the sources, and their types are those of their uses. *)
Record Speaker : Type := mkSpeaker {
  config : Config;
  s : BgpServer;
  conn : Conn;
  linuxRouteMetric : Z
}.

Definition set_s (sp : Speaker) (s' : BgpServer) : Speaker :=
  {| config := config sp; s := s'; conn := conn sp;
     linuxRouteMetric := linuxRouteMetric sp |}.

Definition set_conn (sp : Speaker) (c' : Conn) : Speaker :=
  {| config := config sp; s := s sp; conn := c';
     linuxRouteMetric := linuxRouteMetric sp |}.

(** Methods of [*Speaker] that return [error]: the speaker is threaded
    through. *)
Definition method : Type := Speaker → option error * Speaker.

(** [sp.s.<Request>(ctx, ...)] *)
Definition bgp (r : request) : method :=
  λ sp, let '(err, s') := call r (s sp) in (err, set_s sp s').

(** [if err := m; err != nil { return wrap(err) }; k] *)
Definition try (m : method) (wrap : error → error) (k : method) : method :=
  λ sp, match m sp with
        | (Some err, sp') => (Some (wrap err), sp')
        | (None, sp') => k sp'
        end.

Definition ret (r : option error) : method := λ sp, (r, sp).

End Netlink.

Notation "'TRY' m 'WRAP' w 'THEN' k" := (try m w k)
  (at level 10, m at level 9, w at level 9, k at level 200,
   format "'[v' 'TRY'  m  'WRAP'  w  'THEN' '/' k ']'").

(** ** The BGP controller *)

Section Controller.
Context `{GoNet}.

(** Returning the error as it is: [if err := m; err != nil { return err }]. *)
Definition as_is (e : error) : error := e.

Definition startBgp : method :=
  λ sp, bgp (StartBgp (ASN (config sp)) (AnycastIP (config sp)) (-1)) sp.

Definition stopBgp : method := bgp StopBgp.

(** The [for _, neighbor := range sp.config.Neighbors] loop. *)
Fixpoint addNeighbors_loop (ns : list Neighbor) : method :=
  match ns with
  | [] => ret None
  | neighbor :: ns' =>
      TRY (bgp (AddPeer (Address neighbor) (PeerASN neighbor))) WRAP as_is THEN
      addNeighbors_loop ns'
  end.

Definition addNeighbors : method :=
  λ sp, addNeighbors_loop (Neighbors (config sp)) sp.

Definition anycastPath (sp : Speaker) : error + Path :=
  match anypb_New (IPAddressPrefix (AnycastIP (config sp)) 32) with
  | inl err =>
      inl (Errorf "error creating network layer reachability information")
  | inr nlri =>
      (* [a1, _ := anypb.New(...)]: the error is dropped *)
      let a1 := packed (OriginAttribute BGP_ORIGIN_ATTR_TYPE_IGP) in
      let a2 := packed (NextHopAttribute "0.0.0.0") in
      inr {| path_Family :=
               Some {| Afi := Family_AFI_IP; Safi := Family_SAFI_UNICAST |};
             Nlri := Some nlri;
             Pattrs := [a1; a2] |}
  end.

Definition addPath : method :=
  λ sp, match anycastPath sp with
        | inl err => (Some err, sp)
        | inr path => bgp (AddPath path) sp
        end.

Definition deletePath : method :=
  λ sp, match anycastPath sp with
        | inl err => (Some err, sp)
        | inr path => bgp (DeletePath path) sp
        end.

Definition addDefinedSet (ds : DefinedSet) : method :=
  TRY (bgp (AddDefinedSet ds)) WRAP (Wrapf "error creating defined-set") THEN
  ret None.

Definition addPolicyAssignment (a : PolicyAssignment) : method :=
  TRY (bgp (AddPolicyAssignment a))
  WRAP (Wrapf "error creating policy assignment") THEN
  ret None.

Definition addPolicy (p : Policy) : method :=
  TRY (bgp (AddPolicy p false)) WRAP (Wrapf "failed to add policy") THEN
  ret None.

(** [fmt.Sprintf("%s/32", a)] *)
Definition slash32 (a : string) : string := a +:+ "/32".

Definition prefixSetDefaultRoute : DefinedSet :=
  {| ds_DefinedType := DefinedType_PREFIX;
     ds_Name := defaultRoute;
     ds_List := [];
     ds_Prefixes :=
       [ {| IpPrefix := "0.0.0.0/0"; MaskLengthMin := 0; MaskLengthMax := 0 |} ] |}.

Definition prefixSetAnycastIP (c : Config) : DefinedSet :=
  {| ds_DefinedType := DefinedType_PREFIX;
     ds_Name := anycastIP;
     ds_List := [];
     ds_Prefixes :=
       [ {| IpPrefix := slash32 (AnycastIP c);
            MaskLengthMin := 32; MaskLengthMax := 32 |} ] |}.

Definition neighborSet (c : Config) : DefinedSet :=
  {| ds_DefinedType := DefinedType_NEIGHBOR;
     ds_Name := uplinks;
     ds_List := (λ n, slash32 (Address n)) <$> Neighbors c;
     ds_Prefixes := [] |}.

Definition addDefinedSets : method :=
  λ sp,
    (TRY (addDefinedSet prefixSetDefaultRoute) WRAP as_is THEN
     TRY (addDefinedSet (prefixSetAnycastIP (config sp))) WRAP as_is THEN
     TRY (addDefinedSet (neighborSet (config sp))) WRAP as_is THEN
     ret None) sp.

Definition createDefaultRoutePolicy : Policy :=
  {| Name := defaultRoutePolicy;
     Statements :=
       [ {| st_Name := "allow-default-route";
            st_Conditions :=
              {| PrefixSet := Some {| ms_Type := MatchSet_ANY; ms_Name := defaultRoute |};
                 NeighborSet := Some {| ms_Type := MatchSet_ANY; ms_Name := uplinks |};
                 RouteType := Conditions_ROUTE_TYPE_NONE |};
            st_RouteAction := RouteAction_ACCEPT |} ] |}.

Definition createAnycastIPPolicy : Policy :=
  {| Name := onlyAnycastIP;
     Statements :=
       [ {| st_Name := "allow-anycast-ip";
            st_Conditions :=
              {| PrefixSet := Some {| ms_Type := MatchSet_ANY; ms_Name := anycastIP |};
                 NeighborSet := Some {| ms_Type := MatchSet_ANY; ms_Name := uplinks |};
                 RouteType := Conditions_ROUTE_TYPE_NONE |};
            st_RouteAction := RouteAction_ACCEPT |} ] |}.

Definition createAnycastIPPolicyImport : Policy :=
  {| Name := onlyAnycastIP;
     Statements :=
       [ {| st_Name := "allow-anycast-ip-igp";
            st_Conditions :=
              {| PrefixSet := Some {| ms_Type := MatchSet_ANY; ms_Name := anycastIP |};
                 NeighborSet := None;
                 RouteType := Conditions_ROUTE_TYPE_LOCAL |};
            st_RouteAction := RouteAction_ACCEPT |} ] |}.

Definition importAssignment (policyDefaultRoute policyImportAnycastIP : Policy)
  : PolicyAssignment :=
  {| pa_Name := global;
     Direction := PolicyDirection_IMPORT;
     Policies := [policyDefaultRoute; policyImportAnycastIP];
     DefaultAction := RouteAction_REJECT |}.

Definition exportAssignment (policyAnycastIP : Policy) : PolicyAssignment :=
  {| pa_Name := global;
     Direction := PolicyDirection_EXPORT;
     Policies := [policyAnycastIP];
     DefaultAction := RouteAction_REJECT |}.

Definition setupPolicies : method :=
  TRY addDefinedSets WRAP (Wrapf "addDefinedSets failed") THEN
  let policyDefaultRoute := createDefaultRoutePolicy in
  TRY (addPolicy policyDefaultRoute) WRAP as_is THEN
  let policyAnycastIP := createAnycastIPPolicy in
  TRY (addPolicy policyAnycastIP) WRAP as_is THEN
  let policyImportAnycastIP := createAnycastIPPolicyImport in
  TRY (addPolicy policyImportAnycastIP) WRAP as_is THEN
  TRY (addPolicyAssignment
         (importAssignment policyDefaultRoute policyImportAnycastIP))
  WRAP as_is THEN
  TRY (addPolicyAssignment (exportAssignment policyAnycastIP)) WRAP as_is THEN
  ret None.

Definition setup : method :=
  TRY startBgp WRAP (Wrapf "error starting bgp") THEN
  TRY setupPolicies WRAP (Wrapf "error creating policies") THEN
  TRY addNeighbors WRAP (Wrapf "error adding neighbors") THEN
  λ sp,
    if decide (HealthCheckURL (config sp) = "") then
      (TRY addPath WRAP (Wrapf "error advertising anycast route") THEN
       ret None) sp
    else ret None sp.

End Controller.

(** ** The requests of a method, as a list

    A script is the list of requests a method sends to the server, each
    with the wrapping its error gets on the way out.  [run_script] sends
    them in order and stops at the first error. *)

Section Scripts.
Context `{GoNet}.

Definition script : Type := list (request * (error → error)).

Fixpoint run_script (sc : script) : method :=
  match sc with
  | [] => ret None
  | (r, w) :: sc' => TRY (bgp r) WRAP w THEN run_script sc'
  end.

Definition wrap_script (w : error → error) (sc : script) : script :=
  (λ rw, (rw.1, λ e, w (rw.2 e))) <$> sc.

(** A method, which may read the configuration, is scripted by [sc] when
    it does what running [sc] does. *)
Definition scripted (m : Config → method) (sc : Config → script) : Prop :=
  ∀ sp, m (config sp) sp = run_script (sc (config sp)) sp.

(** The server accepts the requests [rs], sent one after the other. *)
Definition accepts (sv : BgpServer) (rs : list request) : Prop :=
  ∀ (i : nat) r, rs !! i = Some r →
                 answer sv (history sv ++ take i rs) r = None.

End Scripts.

(** The anycast path of a configuration. *)
Definition anycast_path (c : Config) : Path :=
  {| path_Family := Some {| Afi := Family_AFI_IP; Safi := Family_SAFI_UNICAST |};
     Nlri := Some (packed (IPAddressPrefix (AnycastIP c) 32));
     Pattrs := [ packed (OriginAttribute BGP_ORIGIN_ATTR_TYPE_IGP);
                 packed (NextHopAttribute "0.0.0.0") ] |}.

Definition startBgp_script (c : Config) : script :=
  [ (StartBgp (ASN c) (AnycastIP c) (-1), as_is) ].

Definition addDefinedSets_script (c : Config) : script :=
  [ (AddDefinedSet prefixSetDefaultRoute, Wrapf "error creating defined-set");
    (AddDefinedSet (prefixSetAnycastIP c), Wrapf "error creating defined-set");
    (AddDefinedSet (neighborSet c), Wrapf "error creating defined-set") ].

Definition setupPolicies_script (c : Config) : script :=
  wrap_script (Wrapf "addDefinedSets failed") (addDefinedSets_script c) ++
  [ (AddPolicy createDefaultRoutePolicy false, Wrapf "failed to add policy");
    (AddPolicy createAnycastIPPolicy false, Wrapf "failed to add policy");
    (AddPolicy createAnycastIPPolicyImport false, Wrapf "failed to add policy");
    (AddPolicyAssignment
       (importAssignment createDefaultRoutePolicy createAnycastIPPolicyImport),
     Wrapf "error creating policy assignment");
    (AddPolicyAssignment (exportAssignment createAnycastIPPolicy),
     Wrapf "error creating policy assignment") ].

Definition addNeighbors_script (c : Config) : script :=
  (λ n, (AddPeer (Address n) (PeerASN n), as_is)) <$> Neighbors c.

Definition addPath_script (c : Config) : script :=
  [ (AddPath (anycast_path c), as_is) ].

(** The four phases of [setup], in the order of the source. *)
Definition setup_script (c : Config) : script :=
  wrap_script (Wrapf "error starting bgp") (startBgp_script c) ++
  wrap_script (Wrapf "error creating policies") (setupPolicies_script c) ++
  wrap_script (Wrapf "error adding neighbors") (addNeighbors_script c) ++
  (if decide (HealthCheckURL c = "")
   then wrap_script (Wrapf "error advertising anycast route") (addPath_script c)
   else []).

(** The policies among the requests of a history. *)
Definition added_policies (reqs : list request) : list Policy :=
  omap (λ r, match r with AddPolicy p _ => Some p | _ => None end) reqs.

(** ** update_fib.go *)

Definition UpdateFIBIntervalSeconds : Z := 1.
Definition familyAfInet : Z := 2.
Definition rtTableMain : Z := 254.
Definition protoBgp : Z := 186.
Definition typeUnicast : Z := 1.
Definition scopeGlobal : Z := 0.
Definition defaultPriority : Z := 170.
Definition getRoute : Z := 0x1a.
Definition newRoute : Z := 0x18.
Definition deleteRoute : Z := 0x19.

(** Header flags of [github.com/mdlayher/netlink]. *)
Definition netlink_Request : Z := 0x1.
Definition netlink_Acknowledge : Z := 0x4.
Definition netlink_Root : Z := 0x100.
Definition netlink_Match : Z := 0x200.
Definition netlink_Dump : Z := Z.lor netlink_Root netlink_Match.
Definition netlink_Replace : Z := 0x100.
Definition netlink_Create : Z := 0x400.

Definition replaceFlags : Z :=
  Z.lor (Z.lor (Z.lor netlink_Request netlink_Create) netlink_Replace)
        netlink_Acknowledge.

(** Modelled from the spec: the constant [zeroPrefix], which
    [setDefaultRoute] compares a destination's prefix with, is declared in
    a file of the package that is not among the sources; the spec names
    the prefix of the default route, [0.0.0.0/0]. *)
Definition zeroPrefix : string := "0.0.0.0/0".

(** What the [select] of [UpdateFIB] receives. *)
Inductive fib_event : Type := FibDone | FibTick.

Section Reconciler.
Context `{GoNet}.

Definition linuxRouteIsMine (sp : Speaker) (route : RouteMessage) : bool :=
  bool_decide (Protocol route = protoBgp) &&
  bool_decide (DstLength route = 0) &&
  bool_decide (Table route = rtTableMain) &&
  bool_decide (rm_Family route = familyAfInet) &&
  bool_decide (rm_Type route = typeUnicast) &&
  bool_decide (Scope route = scopeGlobal) &&
  bool_decide (Priority (Attributes route) = linuxRouteMetric sp).

(** The [for i := range msgs] loop of [getLinuxBGPDefaultRoute]. *)
Fixpoint firstMine (sp : Speaker) (msgs : list nl_message)
  : error + option RouteMessage :=
  match msgs with
  | [] => inr None
  | msg_other :: _ =>
      inl (Wrapf "unexpected rtnetlink message" ErrUnsupported)
  | msg_route route :: msgs' =>
      if linuxRouteIsMine sp route then inr (Some route)
      else firstMine sp msgs'
  end.

Definition getLinuxBGPDefaultRoute (sp : Speaker)
  : (error + option RouteMessage) * Speaker :=
  let '(reply, c) :=
    Execute RouteMessage_zero getRoute
            (Z.lor netlink_Request netlink_Dump) (conn sp) in
  match reply with
  | inl err => (inl (Wrapf "failed to get table of routes" err), set_conn sp c)
  | inr msgs => (firstMine sp msgs, set_conn sp c)
  end.

(** [attr.UnmarshalTo(nextHopAttr)]: an [Any] holding another message
    type, or bytes that do not decode, give an error. *)
Definition UnmarshalTo_NextHopAttribute (attr : Any) : error + string :=
  match attr with
  | packed (NextHopAttribute nh) => inr nh
  | packed _ => inl (Errorf "mismatched message type")
  | undecodable _ err => inl err
  end.

(** [nextHop]: the first attribute that is a [NextHopAttribute]. *)
Fixpoint nextHop_attrs (attrs : list Any) : error + string :=
  match attrs with
  | [] => inl (Errorf "faild to extract next hop from gobgp api.Path")
  | attr :: attrs' =>
      if MessageIs attr name_NextHopAttribute then
        match UnmarshalTo_NextHopAttribute attr with
        | inl err => inl err
        | inr nh => inr nh
        end
      else nextHop_attrs attrs'
  end.

Definition nextHop (path : Path) : error + string := nextHop_attrs (Pattrs path).

Definition cleanupDefaultRoute : method :=
  λ sp,
    let routeMessage :=
      {| rm_Family := familyAfInet; DstLength := 0; Table := rtTableMain;
         Protocol := protoBgp; Scope := 0; rm_Type := typeUnicast;
         Attributes := {| Gateway := IP_nil;
                          Priority := linuxRouteMetric sp;
                          Multipath := None |} |} in
    match getLinuxBGPDefaultRoute sp with
    | (inl err, sp1) =>
        (Some (Wrapf "cleanupDefaultRoute: failed to lookup default route" err),
         sp1)
    | (inr None, sp1) => (None, sp1)
    | (inr (Some oldDefaultRoute), sp1) =>
        let '(reply, c) :=
          Execute routeMessage deleteRoute
                  (Z.lor netlink_Request netlink_Acknowledge) (conn sp1) in
        match reply with
        | inl err =>
            (Some (Wrapf "bgp default route cleanup from linux failed" err),
             set_conn sp1 c)
        | inr _ => (None, set_conn sp1 c)
        end
    end.

Definition setSinglePathRoute (path : Path) : method :=
  λ sp,
    match nextHop path with
    | inl err => (Some (Wrapf "failed to retrieve gateway" err), sp)
    | inr newGateway =>
        match getLinuxBGPDefaultRoute sp with
        | (inl err, sp1) =>
            (Some (Wrapf "setSinglePathRoute: failed to lookup default route" err),
             sp1)
        | (inr oldDefaultRoute, sp1) =>
            if match oldDefaultRoute with
               | Some old =>
                   bool_decide (IP_String (Gateway (Attributes old)) = newGateway)
               | None => false
               end
            then (None, sp1)
            else
              let gateway := ParseIP newGateway in
              if IP_is_nil (To4 gateway) then
                (Some (Wrapf "gateway is not ipv4" ErrUnsupported), sp1)
              else
                let routeMessage :=
                  {| rm_Family := familyAfInet; DstLength := 0;
                     Table := rtTableMain; Protocol := protoBgp; Scope := 0;
                     rm_Type := typeUnicast;
                     Attributes := {| Gateway := gateway;
                                      Priority := linuxRouteMetric sp1;
                                      Multipath := None |} |} in
                let '(reply, c) :=
                  Execute routeMessage newRoute replaceFlags (conn sp1) in
                (match reply with inl err => Some err | inr _ => None end,
                 set_conn sp1 c)
        end
    end.

(** The first loop of [setMultiPathRoute]: the set of next hops. *)
Fixpoint collectNextHops (paths : list Path) (newNextHops : gset string)
  : error + gset string :=
  match paths with
  | [] => inr newNextHops
  | path :: paths' =>
      match nextHop path with
      | inl err => inl (Wrapf "failed to retrieve gateway" err)
      | inr nh => collectNextHops paths' ({[ nh ]} ∪ newNextHops)
      end
  end.

(** The loop computing [routesAreEqual]. *)
Definition routesAreEqual (oldMultipath : list NextHop)
    (newNextHops : gset string) : bool :=
  forallb (λ oldNextHop,
             bool_decide (IP_String (nh_Gateway oldNextHop) ∈ newNextHops))
          oldMultipath.

(** The last loop of [setMultiPathRoute].  Go ranges over a map in an
    order of its choosing; [gws] is the order of one run. *)
Fixpoint buildNextHops (gws : list string) (nextHops : list NextHop)
  : error + list NextHop :=
  match gws with
  | [] => inr nextHops
  | gw :: gws' =>
      let gateway := ParseIP gw in
      if IP_is_nil (To4 gateway) then
        inl (Wrapf "gateway is not ipv4" ErrUnsupported)
      else buildNextHops gws' (nextHops ++ [ {| nh_Gateway := gateway |} ])
  end.

Definition setMultiPathRoute (paths : list Path) : method :=
  λ sp,
    match collectNextHops paths ∅ with
    | inl err => (Some err, sp)
    | inr newNextHops =>
        match getLinuxBGPDefaultRoute sp with
        | (inl err, sp1) =>
            (Some (Wrapf "setMultiPathRoute: failed to lookup default route" err),
             sp1)
        | (inr oldDefaultRoute, sp1) =>
            if match oldDefaultRoute with
               | Some old =>
                   match Multipath (Attributes old) with
                   | Some oldMultipath =>
                       bool_decide (length oldMultipath = size newNextHops)
                       && routesAreEqual oldMultipath newNextHops
                   | None => false
                   end
               | None => false
               end
            then (None, sp1)
            else
              match buildNextHops (elements newNextHops) [] with
              | inl err => (Some err, sp1)
              | inr nextHops =>
                  let routeMessage :=
                    {| rm_Family := familyAfInet; DstLength := 0;
                       Table := rtTableMain; Protocol := protoBgp; Scope := 0;
                       rm_Type := typeUnicast;
                       Attributes := {| Gateway := IP_nil;
                                        Priority := linuxRouteMetric sp1;
                                        Multipath := Some nextHops |} |} in
                  let '(reply, c) :=
                    Execute routeMessage newRoute replaceFlags (conn sp1) in
                  (match reply with inl err => Some err | inr _ => None end,
                   set_conn sp1 c)
              end
        end
    end.

Definition setDefaultRoute : method :=
  λ sp,
    let req :=
      ListPath TableType_GLOBAL
               {| Afi := Family_AFI_IP; Safi := Family_SAFI_UNICAST |} in
    (* [filterDefaultRoutes] is called on each destination of the table *)
    let defaultRoutes :=
      filter (λ d, Prefix d = zeroPrefix) (table (s sp) (history (s sp))) in
    match bgp req sp with
    | (Some err, sp1) => (Some (Wrapf "bgp list path error" err), sp1)
    | (None, sp1) =>
        match defaultRoutes with
        | [] => (None, sp1)
        | _ :: _ :: _ =>
            (Some (Wrapf "unexpeted number of default routes" ErrUnsupported),
             sp1)
        | [defaultRoute] =>
            match Paths defaultRoute with
            | [path] => setSinglePathRoute path sp1
            | paths => setMultiPathRoute paths sp1
            end
        end
    end.

(** The loop of [UpdateFIB] after the socket is open: a tick reconciles
    (its error is logged and dropped), cancellation cleans up and
    returns.  [None] as the returned value: the loop is still waiting. *)
Fixpoint UpdateFIB_loop (evs : list fib_event) (sp : Speaker)
  : option (option error) * Speaker :=
  match evs with
  | [] => (None, sp)
  | FibDone :: _ =>
      let '(err, sp1) := cleanupDefaultRoute sp in (Some err, sp1)
  | FibTick :: evs' =>
      UpdateFIB_loop evs' (setDefaultRoute sp).2
  end.

(** The requests of a history that change the kernel's table: everything
    but the dump. *)
Definition mutations (reqs : list nl_request) : list nl_request :=
  filter (λ r, req_type r ≠ getRoute) reqs.

(** The request [getLinuxBGPDefaultRoute] sends: a dump of the routes. *)
Definition dump_request : nl_request :=
  {| req_message := RouteMessage_zero; req_type := getRoute;
     req_flags := Z.lor netlink_Request netlink_Dump |}.

(** The RIB's default destination [d] and the kernel route [old] agree.
    With one path: the gateway of [old] prints as the path's next hop.
    Otherwise: [old] has a multipath attribute with as many entries as
    there are distinct next hops among the paths, and the gateway of each
    entry is one of these next hops. *)
Definition agree (d : Destination) (old : RouteMessage) : Prop :=
  match Paths d with
  | [path] => nextHop path = inr (IP_String (Gateway (Attributes old)))
  | paths =>
      ∃ (nhs : list string) (oldMultipath : list NextHop),
        Forall2 (λ p nh, nextHop p = inr nh) paths nhs ∧
        Multipath (Attributes old) = Some oldMultipath ∧
        length oldMultipath = size (list_to_set nhs : gset string) ∧
        ∀ oldNextHop, oldNextHop ∈ oldMultipath →
                      IP_String (nh_Gateway oldNextHop) ∈ (list_to_set nhs : gset string)
  end.

(** The destinations of the table that [filterDefaultRoutes] keeps. *)
Definition defaultRoutes_of (sp : Speaker) : list Destination :=
  filter (λ d, Prefix d = zeroPrefix) (table (s sp) (history (s sp))).

(** The [ListPath] request of [setDefaultRoute]. *)
Definition list_request : request :=
  ListPath TableType_GLOBAL
           {| Afi := Family_AFI_IP; Safi := Family_SAFI_UNICAST |}.

(** A netlink request of the reconciler that keeps to the speaker's own
    route: the dump, or a NEWROUTE or DELROUTE whose route message
    satisfies [linuxRouteIsMine]. *)
Definition own_request (sp : Speaker) (r : nl_request) : Prop :=
  r = dump_request ∨
  ((req_type r = newRoute ∨ req_type r = deleteRoute) ∧
   linuxRouteIsMine sp (req_message r) = true).

(** [sp'] is [sp] after some more such requests. *)
Definition own_requests_only (sp sp' : Speaker) : Prop :=
  linuxRouteMetric sp' = linuxRouteMetric sp ∧
  ∃ new, executed (conn sp') = executed (conn sp) ++ new ∧
         Forall (own_request sp) new.

End Reconciler.

(** ** Runs of the health checker: derived observations *)

(** The number of successful probes among the ticks [es]. *)
Definition successes (es : list tick_env) : nat :=
  length (filter (λ e, probe e = None) es).

(** The callback a tick invokes and that returns nil, if any. *)
Definition succeeded (e : tick_env) (hc : HealthCheck) : list callback :=
  match cb_result e with
  | None => (tick e hc).2
  | Some _ => []
  end.

(** The callbacks that were invoked and returned nil during the ticks
    [es], in order. *)
Fixpoint succeeded_callbacks (es : list tick_env) (hc : HealthCheck)
  : list callback :=
  match es with
  | [] => []
  | e :: es' => succeeded e hc ++ succeeded_callbacks es' (tick e hc).1
  end.

Definition other_callback (cb : callback) : callback :=
  match cb with cbHealthy => cbUnhealthy | cbUnhealthy => cbHealthy end.

(** [l] alternates between the two callbacks, starting with [next]. *)
Fixpoint alternates (next : callback) (l : list callback) : bool :=
  match l with
  | [] => true
  | cb :: l' => bool_decide (cb = next) && alternates (other_callback next) l'
  end.

(** The callback that flips the status [st]. *)
Definition flipping_callback (st : Status) : callback :=
  match st with Unhealthy => cbHealthy | Healthy => cbUnhealthy end.

(** The status a successful callback leads to. *)
Definition status_after (cb : callback) : Status :=
  match cb with cbHealthy => Healthy | cbUnhealthy => Unhealthy end.


(** ** The checker as [Speaker.Run] wires it

    [Speaker.Run] creates the checker with [sp.addPath] as [cbHealthy] and
    [sp.deletePath] as [cbUnhealthy]. *)

Section Gate.
Context `{GoNet}.

Definition callback_method (cb : callback) : method :=
  match cb with cbHealthy => addPath | cbUnhealthy => deletePath end.

(** One tick of that checker, given what the probe returns: the callback
    the tick invokes, if any, is the speaker's method, and what it returns
    is what the tick sees. *)
Definition gate_tick (p : option error) (st : HealthCheck * Speaker)
  : HealthCheck * Speaker :=
  match (tick {| probe := p; cb_result := None |} st.1).2 with
  | cb :: _ =>
      let '(r, sp') := callback_method cb st.2 in
      ((tick {| probe := p; cb_result := r |} st.1).1, sp')
  | [] => ((tick {| probe := p; cb_result := None |} st.1).1, st.2)
  end.

Definition gate_run (ps : list (option error)) (st : HealthCheck * Speaker)
  : HealthCheck * Speaker :=
  foldl (λ st p, gate_tick p st) st ps.

End Gate.

(** Whether the anycast path is advertised after the server, whose
    answers are [ans], has received the requests [reqs] on top of the
    history [h]: an accepted [AddPath] advertises, an accepted
    [DeletePath] withdraws, a refused request changes nothing. *)
Fixpoint advertised_after (ans : list request → request → option error)
    (h reqs : list request) (b : bool) : bool :=
  match reqs with
  | [] => b
  | r :: reqs' =>
      advertised_after ans (h ++ [r]) reqs'
        match ans h r, r with
        | None, AddPath _ => true
        | None, DeletePath _ => false
        | _, _ => b
        end
  end.


(** ** The reconciler's requests, named *)

Section ReconcilerRequests.
Context `{GoNet}.

(** The route message the reconciler builds: the speaker's tuple with the
    given gateway and multipath attribute. *)
Definition own_route (sp : Speaker) (gw : IP) (mp : option (list NextHop))
  : RouteMessage :=
  {| rm_Family := familyAfInet; DstLength := 0; Table := rtTableMain;
     Protocol := protoBgp; Scope := 0; rm_Type := typeUnicast;
     Attributes := {| Gateway := gw; Priority := linuxRouteMetric sp;
                      Multipath := mp |} |}.

(** [sp.conn.Execute(routeMessage, newRoute, replaceFlags)] *)
Definition replace_request (sp : Speaker) (gw : IP)
    (mp : option (list NextHop)) : nl_request :=
  {| req_message := own_route sp gw mp; req_type := newRoute;
     req_flags := replaceFlags |}.


(** The speaker after the dump of [getLinuxBGPDefaultRoute]. *)
Definition after_dump (sp : Speaker) : Speaker :=
  set_conn sp {| executed := executed (conn sp) ++ [dump_request];
                 kernel := kernel (conn sp) |}.

(** [gw] parses as an IPv4 address: [net.ParseIP(gw).To4() != nil]. *)
Definition is_ipv4 (gw : string) : bool := negb (IP_is_nil (To4 (ParseIP gw))).

(** The error of a netlink reply, as [_, err = Execute(...); return err]. *)
Definition reply_error (reply : error + list nl_message) : option error :=
  match reply with inl err => Some err | inr _ => None end.

(** The speaker after [n] ticks of the reconciler. *)
Fixpoint after_ticks (n : nat) (sp : Speaker) : Speaker :=
  match n with
  | O => sp
  | S n' => after_ticks n' (setDefaultRoute sp).2
  end.

End ReconcilerRequests.


Section ReconcilerTests.
Context `{GoNet}.

(** The test of [setSinglePathRoute] for leaving the route as it is. *)
Definition same_gateway (oldDefaultRoute : option RouteMessage)
    (newGateway : string) : bool :=
  match oldDefaultRoute with
  | Some old => bool_decide (IP_String (Gateway (Attributes old)) = newGateway)
  | None => false
  end.

(** The test of [setMultiPathRoute] for leaving the route as it is. *)
Definition same_multipath (oldDefaultRoute : option RouteMessage)
    (newNextHops : gset string) : bool :=
  match oldDefaultRoute with
  | Some old =>
      match Multipath (Attributes old) with
      | Some oldMultipath =>
          bool_decide (length oldMultipath = size newNextHops)
          && routesAreEqual oldMultipath newNextHops
      | None => false
      end
  | None => false
  end.

(** What a tick installs for the next hops [nhs] of the paths of the
    default destination: for one path a gateway, otherwise one hop per
    distinct next hop, in some order. *)
Definition installs (nhs : list string) (gw : IP)
    (mp : option (list NextHop)) : Prop :=
  match nhs with
  | [nh] => gw = ParseIP nh ∧ mp = None
  | _ =>
      gw = IP_nil ∧
      ∃ hops, mp = Some hops ∧
              length hops = size (list_to_set nhs : gset string) ∧
              nh_Gateway <$> hops
              ≡ₚ ParseIP <$> elements (list_to_set nhs : gset string)
  end.

End ReconcilerTests.


(** ** Scoping of the policy requests *)

#[global] Instance DefinedType_eq_dec : EqDecision DefinedType.
Proof. solve_decision. Defined.
#[global] Instance MatchSet_Type_eq_dec : EqDecision MatchSet_Type.
Proof. solve_decision. Defined.
#[global] Instance MatchSet_eq_dec : EqDecision MatchSet.
Proof. solve_decision. Defined.
#[global] Instance Conditions_RouteType_eq_dec : EqDecision Conditions_RouteType.
Proof. solve_decision. Defined.
#[global] Instance Conditions_eq_dec : EqDecision Conditions.
Proof. solve_decision. Defined.
#[global] Instance RouteAction_eq_dec : EqDecision RouteAction.
Proof. solve_decision. Defined.
#[global] Instance Statement_eq_dec : EqDecision Statement.
Proof. solve_decision. Defined.
#[global] Instance Policy_eq_dec : EqDecision Policy.
Proof. solve_decision. Defined.

(** The defined sets a policy refers to, each with the type its place in
    the condition asks for. *)
Definition referred_sets (p : Policy) : list (DefinedType * string) :=
  Statements p ≫= λ st,
    match PrefixSet (st_Conditions st) with
    | Some m => [(DefinedType_PREFIX, ms_Name m)]
    | None => []
    end ++
    match NeighborSet (st_Conditions st) with
    | Some m => [(DefinedType_NEIGHBOR, ms_Name m)]
    | None => []
    end.

(** The requests [reqs], sent in this order to a server that knows the
    defined sets [sets] and the policies [pols], never refer to a defined
    set or to a policy that has not been added before. *)
Fixpoint well_scoped (sets : list (DefinedType * string)) (pols : list Policy)
    (reqs : list request) : bool :=
  match reqs with
  | [] => true
  | AddDefinedSet ds :: reqs' =>
      well_scoped ((ds_DefinedType ds, ds_Name ds) :: sets) pols reqs'
  | AddPolicy p _ :: reqs' =>
      forallb (λ n, bool_decide (n ∈ sets)) (referred_sets p)
      && well_scoped sets (p :: pols) reqs'
  | AddPolicyAssignment a :: reqs' =>
      forallb (λ p, bool_decide (p ∈ pols)) (Policies a)
      && well_scoped sets pols reqs'
  | _ :: reqs' => well_scoped sets pols reqs'
  end.

(** The addresses of the peers among the requests of a history. *)
Definition added_peers (reqs : list request) : list string :=
  omap (λ r, match r with AddPeer a _ => Some a | _ => None end) reqs.


(** ** config.go: the log level *)

(** [LogLevel] is a string type; its seven constants. *)
Definition Panic : string := "panic".
Definition Fatal : string := "fatal".
Definition Error : string := "error".
Definition Warn : string := "warn".
Definition Info : string := "info".
Definition Debug : string := "debug".
Definition Trace : string := "trace".

(** [LogLevel.String] *)
Definition LogLevel_String (l : string) : string := l.

(** [LogLevel.Levels]: a [map[string]struct{}] used as a set. *)
Definition LogLevel_Levels : gset string :=
  {[ Panic; Fatal; Error; Warn; Info; Debug; Trace ]}.

(** [LogLevel.Set]: the level after the call and the error returned. *)
Definition LogLevel_Set (l : string) (s : string) : string * option error :=
  if decide (s ∈ LogLevel_Levels) then (s, None)
  else (l, Some (Errorf ("unknown field value: " +:+ s))).

(** The levels of logrus, in its numbering. *)
Definition PanicLevel : Z := 0.
Definition FatalLevel : Z := 1.
Definition ErrorLevel : Z := 2.
Definition WarnLevel : Z := 3.
Definition InfoLevel : Z := 4.
Definition DebugLevel : Z := 5.
Definition TraceLevel : Z := 6.

(** [LogLevel.LrLevel]: the [switch] with its [default]. *)
Definition LogLevel_LrLevel (l : string) : Z :=
  if decide (l = Panic) then PanicLevel
  else if decide (l = Fatal) then FatalLevel
  else if decide (l = Error) then ErrorLevel
  else if decide (l = Warn) then WarnLevel
  else if decide (l = Info) then InfoLevel
  else if decide (l = Debug) then DebugLevel
  else if decide (l = Trace) then TraceLevel
  else InfoLevel.

(** ** The [netlink] package: the routes set by hand

    The latest of the versions of the file among the sources, the one
    with [DeleteDefaultRoute].  [rtnl.Dial] and [rtnetlink.Dial] give the
    connection or an error; [c.Conn.Route.Replace(m)] of rtnetlink is
    [Execute(m, RTM_NEWROUTE, Request|Create|Replace|Acknowledge)]. *)

Definition routePriority : Z := 50.

(** [strings.Split(s, ",")]: the fields between the commas, at least one. *)
Fixpoint Split_comma (s : string) : list string :=
  match s with
  | EmptyString => [EmptyString]
  | String c rest =>
      if Ascii.eqb c ","%char then EmptyString :: Split_comma rest
      else match Split_comma rest with
           | field :: fields => String c field :: fields
           | [] => [String c EmptyString]
           end
  end.

(** [strings.Contains(s, ",")] *)
Fixpoint Contains_comma (s : string) : bool :=
  match s with
  | EmptyString => false
  | String c rest => Ascii.eqb c ","%char || Contains_comma rest
  end.

Section NetlinkPackage.
Context `{GoNet}.

(** The route message of the package: the tuple with priority 50. *)
Definition manual_route (gw : IP) (mp : option (list NextHop)) : RouteMessage :=
  {| rm_Family := familyAfInet; DstLength := 0; Table := rtTableMain;
     Protocol := protoBgp; Scope := 0; rm_Type := typeUnicast;
     Attributes := {| Gateway := gw; Priority := routePriority;
                      Multipath := mp |} |}.

(** The functions take what [Dial] returned, and return their error and
    the connection as they leave it ([None] when there is none). *)
Definition setSinglepathDefaultRoute (dial : error + Conn) (gateway : IP)
  : option error * option Conn :=
  match dial with
  | inl err => (Some err, None)
  | inr c =>
      let routeMessage := manual_route gateway None in
      let '(reply, c') := Execute routeMessage newRoute replaceFlags c in
      (match reply with inl err => Some err | inr _ => None end, Some c')
  end.

Definition setMultipathDefaultRoute (dial : error + Conn) (gateways : list IP)
  : option error * option Conn :=
  match dial with
  | inl err => (Some err, None)
  | inr c =>
      let nextHops := (λ gw, {| nh_Gateway := gw |}) <$> gateways in
      let routeMessage := manual_route IP_nil (Some nextHops) in
      let flags := replaceFlags in
      let '(reply, c') := Execute routeMessage newRoute flags c in
      (match reply with inl err => Some err | inr _ => None end, Some c')
  end.

Definition SetDefaultRoute (dial : error + Conn) (gateway : string)
  : option error * option Conn :=
  if Contains_comma gateway then
    let gwIps := ParseIP <$> Split_comma gateway in
    setMultipathDefaultRoute dial gwIps
  else
    let gwIp := ParseIP gateway in
    setSinglepathDefaultRoute dial gwIp.

Definition DeleteDefaultRoute (dial : error + Conn)
  : option error * option Conn :=
  match dial with
  | inl err => (Some err, None)
  | inr c =>
      let routeMessage := manual_route IP_nil None in
      let flags := Z.lor netlink_Request netlink_Acknowledge in
      let '(reply, c') := Execute routeMessage deleteRoute flags c in
      (match reply with inl err => Some err | inr _ => None end, Some c')
  end.

End NetlinkPackage.


(** ** An instance of the [net] interface for dotted-quad IPv4

    Addresses are byte lists; [ParseIP] accepts exactly four decimal
    fields in [0, 255] without leading zeros, as Go does for IPv4 text.
    The instance serves the examples of Part II. *)
Module IPv4.

Definition digit (c : ascii) : option Z :=
  let n := Z.of_nat (nat_of_ascii c) in
  if bool_decide (48 ≤ n ≤ 57) then Some (n - 48) else None.

(** [parse_fields txt cur acc]: [cur] is the field being read ([None]
    before its first digit), [acc] the fields already read. *)
Fixpoint parse_fields (txt : string) (cur : option Z) (acc : list Z)
  : option (list Z) :=
  match txt with
  | EmptyString =>
      match cur with
      | Some v => Some (acc ++ [v])
      | None => None
      end
  | String c rest =>
      if Ascii.eqb c "."%char then
        match cur with
        | Some v => parse_fields rest None (acc ++ [v])
        | None => None
        end
      else
        match digit c, cur with
        | Some d, None => parse_fields rest (Some d) acc
        | Some d, Some v =>
            if bool_decide (v = 0) then None                 (* leading zero *)
            else if bool_decide (v * 10 + d ≤ 255)
                 then parse_fields rest (Some (v * 10 + d)) acc
                 else None
        | None, _ => None
        end
  end.

Definition parse (txt : string) : list Z :=
  match parse_fields txt None [] with
  | Some [a; b; c; d] => [a; b; c; d]
  | _ => []
  end.

Definition print (ip : list Z) : string :=
  match ip with
  | [] => "<nil>"
  | [a; b; c; d] =>
      pretty a +:+ "." +:+ pretty b +:+ "." +:+ pretty c +:+ "." +:+ pretty d
  | _ => "?"
  end.

Definition to4 (ip : list Z) : list Z :=
  if bool_decide (length ip = 4%nat) then ip else [].

Definition is_nil (ip : list Z) : bool :=
  match ip with [] => true | _ => false end.

#[export] Instance net : GoNet :=
  {| IP := list Z; IP_nil := []; IP_String := print; ParseIP := parse;
     To4 := to4; IP_is_nil := is_nil |}.

End IPv4.

(** ** A concrete speaker for the examples

    The configuration of the spec's sample file; a server that accepts
    every request and whose table is empty; a kernel that answers every
    request with an empty list of messages. *)
Module Sample.
Import IPv4.

Definition sample_config : Config :=
  {| AnycastIP := "10.0.0.1";
     ASN := 65001;
     Neighbors := [ {| Address := "10.1.0.1"; PeerASN := 65000 |};
                    {| Address := "10.2.0.1"; PeerASN := 65000 |} ];
     HealthCheckURL := "http://127.0.0.1:8080/healthz";
     UpdateFIBMetric := Some 170 |}.

Definition fresh_server (dests : list Destination) : BgpServer :=
  {| history := []; answer := λ _ _, None; table := λ _, dests |}.

Definition fresh_conn (routes : list nl_message) : Conn :=
  {| executed := []; kernel := λ _ _, inr routes |}.

Definition speaker (dests : list Destination) (routes : list nl_message)
  : Speaker :=
  {| config := sample_config; s := fresh_server dests;
     conn := fresh_conn routes; linuxRouteMetric := 170 |}.

(** A path to the default route learned from the peer [nh]. *)
Definition path_via (nh : string) : Path :=
  {| path_Family := Some {| Afi := Family_AFI_IP; Safi := Family_SAFI_UNICAST |};
     Nlri := Some (packed (IPAddressPrefix "0.0.0.0" 0));
     Pattrs := [ packed (OriginAttribute BGP_ORIGIN_ATTR_TYPE_IGP);
                 packed (NextHopAttribute nh) ] |}.

Definition default_via (nhs : list string) : Destination :=
  {| Prefix := "0.0.0.0/0"; Paths := path_via <$> nhs |}.

(** The kernel's default route of protocol 186 and metric 170. *)
Definition kernel_route (gw : IP) (mp : option (list NextHop)) : RouteMessage :=
  {| rm_Family := 2; DstLength := 0; Table := 254; Protocol := 186;
     Scope := 0; rm_Type := 1;
     Attributes := {| Gateway := gw; Priority := 170; Multipath := mp |} |}.

(** A route of the main table that is not the speaker's: protocol 3 (boot). *)
Definition msg_other_table : nl_message :=
  msg_route {| rm_Family := 2; DstLength := 0; Table := 254; Protocol := 3;
               Scope := 0; rm_Type := 1;
               Attributes := {| Gateway := [192; 168; 0; 1]; Priority := 100;
                                Multipath := None |} |}.

Definition single_route : RouteMessage := kernel_route [10; 1; 0; 1] None.

Definition multi_hops : list NextHop :=
  [ @mkNextHop net [10; 2; 0; 1]; @mkNextHop net [10; 1; 0; 1] ].

Definition multi_route : RouteMessage := kernel_route [] (Some multi_hops).

(** One default destination with one path, and the kernel route to the
    same gateway. *)
Definition sp_single : Speaker :=
  speaker [ default_via ["10.1.0.1"] ] [ msg_other_table; msg_route single_route ].

(** One default destination with three paths over two next hops, and the
    kernel's multipath route over the same two (in another order). *)
Definition sp_multi : Speaker :=
  speaker [ default_via ["10.1.0.1"; "10.2.0.1"; "10.1.0.1"] ]
          [ msg_other_table; msg_route multi_route ].

(** No default destination in the table. *)
Definition sp_none : Speaker :=
  speaker [ {| Prefix := "10.0.0.1/32"; Paths := [] |} ]
          [ msg_route single_route ].

(** Two destinations for the default prefix. *)
Definition sp_two : Speaker :=
  speaker [ default_via ["10.1.0.1"]; default_via ["10.2.0.1"] ]
          [ msg_route single_route ].

(** The kernel has the route through 10.1.0.1; the RIB's only path now
    goes through 10.2.0.1. *)
Definition sp_moved : Speaker :=
  speaker [ default_via ["10.2.0.1"] ] [ msg_other_table; msg_route single_route ].

(** The kernel has the single-path route; the RIB now has two paths. *)
Definition sp_grown : Speaker :=
  speaker [ default_via ["10.1.0.1"; "10.2.0.1"] ] [ msg_route single_route ].

(** A RIB whose second path has an IPv6 next hop. *)
Definition sp_v6 : Speaker :=
  speaker [ default_via ["10.1.0.1"; "fe80::1"] ] [ msg_route single_route ].

(** A dump in which a message that is no route comes first. *)
Definition sp_foreign : Speaker :=
  speaker [ default_via ["10.1.0.1"] ] [ msg_other; msg_route single_route ].

(** The hops a tick installs for the next hops 10.1.0.1 and 10.2.0.1. *)
Definition grown_hops : list NextHop :=
  (λ gw, @mkNextHop net (parse gw))
    <$> elements (list_to_set ["10.1.0.1"; "10.2.0.1"] : gset string).

(** A tick whose probe succeeds and whose callback returns an error. *)
Definition callback_fails : tick_env :=
  {| probe := None; cb_result := Some (Errorf "rpc error") |}.


(** No default destination in the table, and a server that answers the
    listing with an error. *)
Definition sp_list_fails : Speaker :=
  {| config := sample_config;
     s := {| history := [];
             answer := λ _ r, match r with
                              | ListPath _ _ => Some (Errorf "rpc error")
                              | _ => None
                              end;
             table := λ _, [] |};
     conn := fresh_conn [ msg_route single_route ];
     linuxRouteMetric := 170 |}.

End Sample.

(* ===================================================================== *)
(** * Part II: properties                                                 *)
(* ===================================================================== *)

(** ** The health checker *)

Lemma int_wrap_id (z : Z) : - 2 ^ 63 ≤ z < 2 ^ 63 → int_wrap z = z.
Proof.
  intros Hz. unfold int_wrap.
  rewrite Z.mod_small by lia. lia.
Qed.

Lemma int_add_1 (c : Z) : 0 ≤ c ≤ 3 → int_add c 1 = c + 1.
Proof. intros Hc. unfold int_add. apply int_wrap_id. lia. Qed.

(** The state built by [NewHealthCheck]. *)
Lemma NewHealthCheck_inr parsed hc :
  NewHealthCheck parsed = inr hc →
  status hc = Unhealthy ∧ okCounter hc = 0.
Proof.
  destruct parsed as [err|url]; simpl; intros Heq; [discriminate|].
  injection Heq as <-. done.
Qed.

Lemma tick_cases e hc : tick_spec e hc (tick e hc).
Proof.
  unfold tick.
  destruct (probe e) as [err|] eqn:Hp, (status hc) eqn:Hs; simpl.
  - apply tick_idle_unhealthy; congruence.
  - destruct (cb_result e) eqn:Hc.
    + apply tick_withdraw_failed; congruence.
    + apply tick_withdraw; congruence.
  - case_bool_decide as Hthr.
    + destruct (cb_result e) eqn:Hc.
      * apply tick_advertise_failed; congruence.
      * apply tick_advertise; congruence.
    + apply tick_count; [done..|lia].
  - apply tick_idle_healthy; congruence.
Qed.

Lemma hc_inv_tick e hc : hc_inv hc → hc_inv (tick e hc).1.
Proof.
  unfold hc_inv, healthyThreshold. intros [Hrange Hh].
  destruct (tick_cases e hc); simpl; unfold healthyThreshold in *;
    rewrite ?int_add_1 by lia;
    (split; [lia | intros; first [discriminate | lia | auto]]).
Qed.

Lemma reachable_inv hc : reachable hc → hc_inv hc.
Proof.
  induction 1 as [parsed hc Hnew|e hc _ IH].
  - apply NewHealthCheck_inr in Hnew as [Hs Hc].
    unfold hc_inv, healthyThreshold. rewrite Hs, Hc.
    split; [lia|intros; discriminate].
  - by apply hc_inv_tick.
Qed.

(** The callbacks of a run, tick by tick. *)
Lemma Run_loop_Tick e evs hc :
  (Run_loop (Tick e :: evs) hc).1.2
  = (tick e hc).2 :: (Run_loop evs (tick e hc).1).1.2.
Proof.
  simpl. destruct (tick e hc) as [hc1 cbs]; simpl.
  by destruct (Run_loop evs hc1) as [[hc2 rest] r].
Qed.

Lemma Run_loop_Tick_state e evs hc :
  (Run_loop (Tick e :: evs) hc).1.1 = (Run_loop evs (tick e hc).1).1.1.
Proof.
  simpl. destruct (tick e hc) as [hc1 cbs]; simpl.
  by destruct (Run_loop evs hc1) as [[hc2 rest] r].
Qed.

(** The state a run is in after its ticks is reachable. *)
Lemma Run_loop_reachable evs hc :
  reachable hc → reachable (Run_loop evs hc).1.1.
Proof.
  revert hc. induction evs as [|[|e] evs IH]; intros hc Hr; simpl; try done.
  pose proof (Run_loop_Tick_state e evs hc) as Hst. simpl in Hst.
  rewrite Hst. apply IH. by apply reachable_tick.
Qed.

(** With an empty URL [Run] invokes no callback and keeps the state;
    otherwise it is the loop. *)
Lemma Run_empty_url evs hc :
  u hc = "" → (Run evs hc).1 = (hc, []).
Proof. intros Hu. unfold Run. by rewrite decide_True. Qed.

Lemma Run_loop_of_Run evs hc : u hc ≠ "" → Run evs hc = Run_loop evs hc.
Proof. intros Hu. unfold Run. by rewrite decide_False. Qed.

(** Cancellation is not an error: when the loop returns, it returns nil. *)
Lemma Run_loop_returns_nil evs hc r :
  (Run_loop evs hc).2 = Some r → r = None.
Proof.
  revert hc. induction evs as [|[|e] evs IH]; intros hc; simpl.
  - discriminate.
  - by intros [= <-].
  - destruct (tick e hc) as [hc1 cbs].
    specialize (IH hc1). by destruct (Run_loop evs hc1) as [[hc2 rest] ret].
Qed.

(** A successful probe in the Unhealthy state, below the threshold. *)
Lemma tick_ok_below e hc :
  probe e = None → status hc = Unhealthy →
  0 ≤ okCounter hc < healthyThreshold →
  tick e hc =
    ({| status := Unhealthy; u := u hc; okCounter := okCounter hc + 1 |}, []).
Proof.
  intros Hp Hs Hc. unfold healthyThreshold in Hc.
  destruct (tick_cases e hc); unfold healthyThreshold in *;
    try congruence; try lia.
  rewrite int_add_1 by lia. done.
Qed.

(** A successful probe in the Unhealthy state, at the threshold. *)
Lemma tick_ok_at_threshold e hc :
  probe e = None → status hc = Unhealthy →
  okCounter hc >= healthyThreshold →
  (tick e hc).2 = [cbHealthy] ∧
  okCounter (tick e hc).1 = okCounter hc ∧
  (cb_result e = None → status (tick e hc).1 = Healthy) ∧
  (cb_result e ≠ None → (tick e hc).1 = hc).
Proof.
  intros Hp Hs Hc.
  destruct (tick_cases e hc); simpl; try congruence; try lia; done.
Qed.

Lemma reachable_hc0 : reachable hc0.
Proof. by apply (reachable_new (inr (u hc0))). Qed.

Lemma reachable_after_ok_ticks n : reachable (after_ok_ticks n).
Proof. apply Run_loop_reachable, reachable_hc0. Qed.

(** C10.  In every state the loop can reach, [okCounter] lies between 0
    and the threshold 3; the counter grows only on a tick that finds it
    strictly below the threshold, and then by exactly one. *)
Theorem okCounter_bounded e hc :
  reachable hc →
  0 ≤ okCounter hc ≤ healthyThreshold ∧
  (okCounter (tick e hc).1 > okCounter hc →
   okCounter hc < healthyThreshold ∧
   okCounter (tick e hc).1 = okCounter hc + 1).
Proof.
  intros Hr. destruct (reachable_inv hc Hr) as [Hrange _].
  split; [done|]. unfold healthyThreshold in *.
  destruct (tick_cases e hc); simpl; unfold healthyThreshold in *;
    rewrite ?int_add_1 by lia; lia.
Qed.

Lemma okCounter_bounded_witness :
  0 ≤ okCounter (after_ok_ticks 3) ≤ healthyThreshold ∧
  (okCounter (tick ok_tick (after_ok_ticks 3)).1 > okCounter (after_ok_ticks 3) →
   okCounter (after_ok_ticks 3) < healthyThreshold ∧
   okCounter (tick ok_tick (after_ok_ticks 3)).1
   = okCounter (after_ok_ticks 3) + 1).
Proof.
  apply (okCounter_bounded ok_tick (after_ok_ticks 3)).
  apply (reachable_after_ok_ticks 3).
Defined.

(** C2, as the spec states it, fails: after four successful ticks the
    checker is Healthy with the counter at 3. *)
Lemma okCounter_positive_while_Healthy :
  ¬ (∀ hc, reachable hc → okCounter hc > 0 → status hc = Unhealthy).
Proof.
  intros Hclaim.
  specialize (Hclaim (after_ok_ticks 4) (reachable_after_ok_ticks 4)).
  vm_compute in Hclaim. by specialize (Hclaim eq_refl).
Qed.

(** C2, amended.  In every reachable state, a counter below the threshold
    3 implies status Unhealthy; equivalently, status Healthy implies that
    the counter equals 3. *)
Theorem okCounter_below_threshold_Unhealthy hc :
  reachable hc →
  (okCounter hc < healthyThreshold → status hc = Unhealthy) ∧
  (status hc = Healthy → okCounter hc = healthyThreshold).
Proof.
  intros Hr. destruct (reachable_inv hc Hr) as [Hrange Hh].
  split; [|done]. intros Hlt.
  destruct (status hc); [done|]. specialize (Hh eq_refl). lia.
Qed.

Lemma okCounter_below_threshold_Unhealthy_witness :
  (okCounter (after_ok_ticks 2) < healthyThreshold →
   status (after_ok_ticks 2) = Unhealthy) ∧
  (status (after_ok_ticks 2) = Healthy →
   okCounter (after_ok_ticks 2) = healthyThreshold).
Proof.
  apply (okCounter_below_threshold_Unhealthy (after_ok_ticks 2)).
  apply (reachable_after_ok_ticks 2).
Defined.




(** C4, as the spec states it, fails: a failed probe in the Unhealthy
    state leaves the counter as it is (here at 2). *)
Lemma okCounter_kept_on_failure_while_Unhealthy :
  ¬ (∀ e hc, reachable hc → probe e ≠ None → okCounter (tick e hc).1 = 0).
Proof.
  intros Hclaim.
  specialize (Hclaim failed_probe (after_ok_ticks 2)
                     (reachable_after_ok_ticks 2)).
  vm_compute in Hclaim. by specialize (Hclaim ltac:(discriminate)).
Qed.

(** C4, amended.  On a probe-failure tick in the Healthy state whose
    [cbUnhealthy] callback succeeds, the status becomes Unhealthy and
    [okCounter] is reset to 0; when that callback fails, and on every
    probe-failure tick in the Unhealthy state, the state (so the counter
    too) is left unchanged. *)
Theorem okCounter_reset_on_withdraw e hc :
  probe e ≠ None →
  (status hc = Healthy → cb_result e = None →
   tick e hc
   = ({| status := Unhealthy; u := u hc; okCounter := 0 |}, [cbUnhealthy])) ∧
  (status hc = Healthy → cb_result e ≠ None →
   tick e hc = (hc, [cbUnhealthy])) ∧
  (status hc = Unhealthy → tick e hc = (hc, [])).
Proof.
  intros Hp.
  repeat split; intros; destruct (tick_cases e hc); congruence.
Qed.

Lemma okCounter_reset_on_withdraw_witness :
  tick failed_probe (after_ok_ticks 4)
  = ({| status := Unhealthy; u := u (after_ok_ticks 4); okCounter := 0 |},
     [cbUnhealthy]) ∧
  tick failed_probe (after_ok_ticks 2) = (after_ok_ticks 2, []).
Proof.
  split.
  - apply (okCounter_reset_on_withdraw failed_probe (after_ok_ticks 4));
      [discriminate|reflexivity|reflexivity].
  - apply (okCounter_reset_on_withdraw failed_probe (after_ok_ticks 2));
      [discriminate|reflexivity].
Defined.

(** C9.  [Do] returns nil exactly when the transport succeeds, the body is
    read to its end without error and the status code is 200; a transport
    error, a read error and any other status code each make it return an
    error. *)
Theorem Do_nil_iff transport :
  (Do transport = None ↔
   ∃ resp, transport = inr resp ∧ body_read resp = None ∧
           StatusCode resp = StatusOK) ∧
  ((∀ err, transport = inl err → is_Some (Do transport)) ∧
   (∀ resp err, transport = inr resp → body_read resp = Some err →
                is_Some (Do transport)) ∧
   (∀ resp, transport = inr resp → StatusCode resp ≠ StatusOK →
            is_Some (Do transport))).
Proof.
  split; [split|repeat split].
  - destruct transport as [err|resp]; simpl; [discriminate|].
    destruct (body_read resp) eqn:Hb; [discriminate|].
    case_decide as Hc; [discriminate|]. intros _.
    exists resp. repeat split; [done|].
    destruct (decide (StatusCode resp = StatusOK)); [done|]. by destruct Hc.
  - intros (resp & -> & Hb & Hc). simpl. rewrite Hb.
    case_decide; [done|done].
  - intros err ->. simpl. eauto.
  - intros resp err -> Hb. simpl. rewrite Hb. eauto.
  - intros resp -> Hc. simpl. destruct (body_read resp); [eauto|].
    case_decide; [eauto|done].
Qed.

(** ** The BGP controller *)

Section ControllerProps.
Context `{GoNet}.

Lemma bgp_eq r sp :
  bgp r sp
  = (answer (s sp) (history (s sp)) r,
     set_s sp {| history := history (s sp) ++ [r];
                 answer := answer (s sp); table := table (s sp) |}).
Proof. reflexivity. Qed.

Lemma run_script_cons r w sc sp :
  run_script ((r, w) :: sc) sp
  = match bgp r sp with
    | (Some e, sp') => (Some (w e), sp')
    | (None, sp') => run_script sc sp'
    end.
Proof. reflexivity. Qed.

Lemma wrap_script_cons w r w0 sc :
  wrap_script w ((r, w0) :: sc) = (r, λ e, w (w0 e)) :: wrap_script w sc.
Proof. reflexivity. Qed.

Lemma bgp_config r sp : config (bgp r sp).2 = config sp.
Proof. reflexivity. Qed.

Lemma run_script_config sc sp : config (run_script sc sp).2 = config sp.
Proof.
  revert sp. induction sc as [|[r w] sc IH]; intros sp; [done|].
  rewrite run_script_cons. pose proof (bgp_config r sp) as Hc.
  destruct (bgp r sp) as [[e|] sp1]; [done|].
  simpl in Hc. by rewrite IH.
Qed.

Lemma run_script_app sc1 sc2 sp :
  run_script (sc1 ++ sc2) sp
  = match run_script sc1 sp with
    | (Some e, sp') => (Some e, sp')
    | (None, sp') => run_script sc2 sp'
    end.
Proof.
  revert sp. induction sc1 as [|[r w] sc1 IH]; intros sp; [done|].
  rewrite <- app_comm_cons, !run_script_cons.
  destruct (bgp r sp) as [[e|] sp1]; [done|]. apply IH.
Qed.

Lemma try_run_script sc w k sp :
  try (run_script sc) w k sp
  = match run_script (wrap_script w sc) sp with
    | (Some e, sp') => (Some e, sp')
    | (None, sp') => k sp'
    end.
Proof.
  revert sp. induction sc as [|[r w0] sc IH]; intros sp; [reflexivity|].
  rewrite wrap_script_cons. unfold try in *. rewrite !run_script_cons.
  destruct (bgp r sp) as [[e|] sp1]; [done|]. apply IH.
Qed.

Lemma scripted_try m sc w k sck :
  scripted m sc → scripted k sck →
  scripted (λ c, try (m c) w (k c)) (λ c, wrap_script w (sc c) ++ sck c).
Proof.
  intros Hm Hk sp. rewrite run_script_app.
  unfold try at 1. rewrite Hm.
  pose proof (try_run_script (sc (config sp)) w (k (config sp)) sp) as Htry.
  unfold try at 1 in Htry. rewrite Htry.
  pose proof (run_script_config (wrap_script w (sc (config sp))) sp) as Hc.
  destruct (run_script (wrap_script w (sc (config sp))) sp) as [[e|] sp1];
    [done|].
  simpl in Hc. by rewrite <- Hc, Hk.
Qed.

Lemma scripted_ret : scripted (λ _, ret None) (λ _, []).
Proof. by intros sp. Qed.

Lemma scripted_bgp (r : Config → request) :
  scripted (λ c, bgp (r c)) (λ c, [(r c, as_is)]).
Proof.
  intros sp. rewrite run_script_cons.
  by destruct (bgp (r (config sp)) sp) as [[e|] sp1].
Qed.

Lemma scripted_ext m sc sc' :
  (∀ c, sc c = sc' c) → scripted m sc → scripted m sc'.
Proof. intros Heq Hm sp. by rewrite <- Heq. Qed.

Lemma scripted_startBgp : scripted (λ _, startBgp) startBgp_script.
Proof.
  intros sp. apply (scripted_bgp (λ c, StartBgp (ASN c) (AnycastIP c) (-1))).
Qed.

Lemma scripted_addDefinedSet (ds : Config → DefinedSet) :
  scripted (λ c, addDefinedSet (ds c))
           (λ c, [(AddDefinedSet (ds c), Wrapf "error creating defined-set")]).
Proof. intros sp. reflexivity. Qed.

Lemma scripted_addPolicy p :
  scripted (λ _, addPolicy p)
           (λ _, [(AddPolicy p false, Wrapf "failed to add policy")]).
Proof. intros sp. reflexivity. Qed.

Lemma scripted_addPolicyAssignment a :
  scripted (λ _, addPolicyAssignment a)
           (λ _, [(AddPolicyAssignment a,
                   Wrapf "error creating policy assignment")]).
Proof. intros sp. reflexivity. Qed.

Lemma scripted_addDefinedSets :
  scripted (λ _, addDefinedSets) addDefinedSets_script.
Proof.
  intros sp.
  refine (scripted_ext _ _ _ _
            (scripted_try _ _ as_is _ _
               (scripted_addDefinedSet (λ _, prefixSetDefaultRoute))
               (scripted_try _ _ as_is _ _
                  (scripted_addDefinedSet prefixSetAnycastIP)
                  (scripted_try _ _ as_is _ _
                     (scripted_addDefinedSet neighborSet)
                     scripted_ret))) sp).
  intros c. reflexivity.
Qed.

Lemma scripted_setupPolicies :
  scripted (λ _, setupPolicies) setupPolicies_script.
Proof.
  intros sp.
  refine (scripted_ext _ _ _ _
            (scripted_try _ _ (Wrapf "addDefinedSets failed") _ _
               scripted_addDefinedSets
            (scripted_try _ _ as_is _ _
               (scripted_addPolicy createDefaultRoutePolicy)
            (scripted_try _ _ as_is _ _
               (scripted_addPolicy createAnycastIPPolicy)
            (scripted_try _ _ as_is _ _
               (scripted_addPolicy createAnycastIPPolicyImport)
            (scripted_try _ _ as_is _ _
               (scripted_addPolicyAssignment
                  (importAssignment createDefaultRoutePolicy
                                    createAnycastIPPolicyImport))
            (scripted_try _ _ as_is _ _
               (scripted_addPolicyAssignment
                  (exportAssignment createAnycastIPPolicy))
               scripted_ret)))))) sp).
  intros c. reflexivity.
Qed.

Lemma scripted_addNeighbors_loop ns :
  scripted (λ _, addNeighbors_loop ns)
           (λ _, (λ n, (AddPeer (Address n) (PeerASN n), as_is)) <$> ns).
Proof.
  induction ns as [|n ns IH]; [apply scripted_ret|].
  intros sp.
  exact (scripted_try _ _ as_is _ _
           (scripted_bgp (λ _, AddPeer (Address n) (PeerASN n))) IH sp).
Qed.

Lemma scripted_addNeighbors : scripted (λ _, addNeighbors) addNeighbors_script.
Proof. intros sp. apply (scripted_addNeighbors_loop (Neighbors (config sp))). Qed.

Lemma anycastPath_eq sp : anycastPath sp = inr (anycast_path (config sp)).
Proof. reflexivity. Qed.

Lemma scripted_addPath : scripted (λ _, addPath) addPath_script.
Proof.
  intros sp. unfold addPath. rewrite anycastPath_eq.
  apply (scripted_bgp (λ c, AddPath (anycast_path c))).
Qed.

Lemma scripted_advertise :
  scripted (λ _, TRY addPath WRAP (Wrapf "error advertising anycast route")
                 THEN ret None)
           (λ c, wrap_script (Wrapf "error advertising anycast route")
                             (addPath_script c)).
Proof.
  apply (scripted_ext _
           (λ c, wrap_script (Wrapf "error advertising anycast route")
                             (addPath_script c) ++ [])).
  - intros c. apply app_nil_r.
  - apply (scripted_try _ _ (Wrapf "error advertising anycast route") _ _
             scripted_addPath scripted_ret).
Qed.

Lemma scripted_advertise_if_ungated :
  scripted
    (λ _ sp,
       if decide (HealthCheckURL (config sp) = "") then
         (TRY addPath WRAP (Wrapf "error advertising anycast route") THEN
          ret None) sp
       else ret None sp)
    (λ c, if decide (HealthCheckURL c = "")
          then wrap_script (Wrapf "error advertising anycast route")
                           (addPath_script c)
          else []).
Proof.
  intros sp. simpl.
  destruct (decide (HealthCheckURL (config sp) = "")); [|done].
  apply scripted_advertise.
Qed.

Lemma scripted_setup : scripted (λ _, setup) setup_script.
Proof.
  intros sp.
  exact (scripted_try _ _ (Wrapf "error starting bgp") _ _
           scripted_startBgp
        (scripted_try _ _ (Wrapf "error creating policies") _ _
           scripted_setupPolicies
        (scripted_try _ _ (Wrapf "error adding neighbors") _ _
           scripted_addNeighbors
           scripted_advertise_if_ungated)) sp).
Qed.

Lemma accepts_nil sv : accepts sv [].
Proof. intros i r Hi. by rewrite lookup_nil in Hi. Qed.

Lemma accepts_cons sv r rs :
  answer sv (history sv) r = None →
  accepts {| history := history sv ++ [r]; answer := answer sv;
             table := table sv |} rs →
  accepts sv (r :: rs).
Proof.
  intros Hr Hrs [|i] r' Hi; simpl in *.
  - injection Hi as <-. by rewrite app_nil_r.
  - specialize (Hrs i r' Hi). simpl in Hrs.
    by rewrite <- app_assoc in Hrs.
Qed.

(** What running a script does to the speaker: only the server's history
    grows, by the requests sent; on an error the last request sent is the
    one the server refused, and nothing is sent after it. *)
Lemma run_script_trace sc sp :
  conn (run_script sc sp).2 = conn sp ∧
  linuxRouteMetric (run_script sc sp).2 = linuxRouteMetric sp ∧
  answer (s (run_script sc sp).2) = answer (s sp) ∧
  table (s (run_script sc sp).2) = table (s sp) ∧
  match (run_script sc sp).1 with
  | None =>
      history (s (run_script sc sp).2) = history (s sp) ++ sc.*1 ∧
      accepts (s sp) sc.*1
  | Some e =>
      ∃ sc1 r w sc2 e0,
        sc = sc1 ++ (r, w) :: sc2 ∧
        history (s (run_script sc sp).2) = history (s sp) ++ sc1.*1 ++ [r] ∧
        accepts (s sp) sc1.*1 ∧
        answer (s sp) (history (s sp) ++ sc1.*1) r = Some e0 ∧
        e = w e0
  end.
Proof.
  revert sp. induction sc as [|[r w] sc IH]; intros sp.
  - simpl. repeat split; [by rewrite app_nil_r|apply accepts_nil].
  - rewrite run_script_cons, bgp_eq.
    destruct (answer (s sp) (history (s sp)) r) as [e0|] eqn:Hans.
    + simpl. repeat split.
      exists [], r, w, sc, e0. simpl. rewrite app_nil_r. repeat split; [|done].
      apply accepts_nil.
    + specialize (IH (set_s sp {| history := history (s sp) ++ [r];
                                  answer := answer (s sp);
                                  table := table (s sp) |})).
      destruct IH as (Hconn & Hmetric & Hans' & Htable & IH).
      simpl in Hconn, Hmetric, Hans', Htable.
      repeat split; try done.
      destruct (run_script sc _) as [[e|] sp'] eqn:Hrun; simpl in *.
      * destruct IH as (sc1 & r1 & w1 & sc2 & e1 & -> & Hh & Hacc & Ha & ->).
        exists ((r, w) :: sc1), r1, w1, sc2, e1. simpl.
        rewrite Hh, <- !app_assoc. simpl. repeat split.
        -- by apply accepts_cons.
        -- by rewrite <- app_assoc in Ha.
      * destruct IH as [Hh Hacc]. rewrite Hh, <- app_assoc. simpl.
        split; [done|]. by apply accepts_cons.
Qed.

Lemma wrap_script_root_cause w sc :
  (∀ e, root_cause (w e) = root_cause e) →
  Forall (λ rw : request * (error → error),
            ∀ e, root_cause (rw.2 e) = root_cause e) sc →
  Forall (λ rw : request * (error → error),
            ∀ e, root_cause (rw.2 e) = root_cause e) (wrap_script w sc).
Proof.
  intros Hw Hsc. unfold wrap_script. apply Forall_fmap.
  eapply Forall_impl; [exact Hsc|].
  intros [r w0] Hw0 e. simpl in *. by rewrite Hw, Hw0.
Qed.

Lemma setupPolicies_script_root_cause c :
  Forall (λ rw : request * (error → error),
            ∀ e, root_cause (rw.2 e) = root_cause e) (setupPolicies_script c).
Proof. unfold setupPolicies_script. simpl. repeat constructor. Qed.

Lemma setup_script_root_cause c :
  Forall (λ rw : request * (error → error),
            ∀ e, root_cause (rw.2 e) = root_cause e) (setup_script c).
Proof.
  unfold setup_script. rewrite !Forall_app. repeat split.
  - repeat constructor.
  - apply wrap_script_root_cause; [done|apply setupPolicies_script_root_cause].
  - apply wrap_script_root_cause; [done|].
    unfold addNeighbors_script. apply Forall_fmap, Forall_true. done.
  - destruct (decide (HealthCheckURL c = "")); repeat constructor.
Qed.

(** The requests of [setup], phase by phase. *)
Lemma setup_script_requests c :
  (setup_script c).*1
  = [StartBgp (ASN c) (AnycastIP c) (-1)]
    ++ (setupPolicies_script c).*1
    ++ ((λ n, AddPeer (Address n) (PeerASN n)) <$> Neighbors c)
    ++ (if decide (HealthCheckURL c = "") then [AddPath (anycast_path c)]
        else []).
Proof.
  unfold setup_script, wrap_script, addNeighbors_script.
  rewrite !fmap_app, <- !list_fmap_compose.
  f_equal. f_equal. f_equal.
  by destruct (decide (HealthCheckURL c = "")).
Qed.

End ControllerProps.

Section ControllerClaims.
Context `{GoNet}.

Lemma setup_eq_run_script sp : setup sp = run_script (setup_script (config sp)) sp.
Proof. apply scripted_setup. Qed.

Lemma setupPolicies_eq_run_script sp :
  setupPolicies sp = run_script (setupPolicies_script (config sp)) sp.
Proof. apply scripted_setupPolicies. Qed.

(** C8.  [setup] runs [startBgp], [setupPolicies], [addNeighbors] and, only
    when [HealthCheckURL] is empty, [addPath], in this order; the first
    step that returns an error ends [setup], which returns that error
    (wrapped) with the speaker as that step left it.  On the wire: the
    requests [setup] sends are an initial segment of the requests of the
    four phases in order, and on an error the last request sent is the one
    the server refused, whose error is the cause of the one returned. *)
Theorem setup_in_order sp :
  ((∀ e sp1,
      startBgp sp = (Some e, sp1) →
      setup sp = (Some (Wrapf "error starting bgp" e), sp1)) ∧
   (∀ sp1 e sp2,
      startBgp sp = (None, sp1) → setupPolicies sp1 = (Some e, sp2) →
      setup sp = (Some (Wrapf "error creating policies" e), sp2)) ∧
   (∀ sp1 sp2 e sp3,
      startBgp sp = (None, sp1) → setupPolicies sp1 = (None, sp2) →
      addNeighbors sp2 = (Some e, sp3) →
      setup sp = (Some (Wrapf "error adding neighbors" e), sp3)) ∧
   (∀ sp1 sp2 sp3,
      startBgp sp = (None, sp1) → setupPolicies sp1 = (None, sp2) →
      addNeighbors sp2 = (None, sp3) →
      setup sp
      = if decide (HealthCheckURL (config sp3) = "")
        then (Wrapf "error advertising anycast route" <$> (addPath sp3).1,
              (addPath sp3).2)
        else (None, sp3))) ∧
  (setup_script (config sp)).*1
  = [StartBgp (ASN (config sp)) (AnycastIP (config sp)) (-1)]
    ++ (setupPolicies_script (config sp)).*1
    ++ ((λ n, AddPeer (Address n) (PeerASN n)) <$> Neighbors (config sp))
    ++ (if decide (HealthCheckURL (config sp) = "")
        then [AddPath (anycast_path (config sp))] else []) ∧
  conn (setup sp).2 = conn sp ∧
  match (setup sp).1 with
  | None =>
      history (s (setup sp).2)
      = history (s sp) ++ (setup_script (config sp)).*1 ∧
      accepts (s sp) (setup_script (config sp)).*1
  | Some e =>
      ∃ sc1 r w sc2 e0,
        setup_script (config sp) = sc1 ++ (r, w) :: sc2 ∧
        history (s (setup sp).2) = history (s sp) ++ sc1.*1 ++ [r] ∧
        accepts (s sp) sc1.*1 ∧
        answer (s sp) (history (s sp) ++ sc1.*1) r = Some e0 ∧
        e = w e0 ∧ root_cause e = root_cause e0
  end.
Proof.
  split; [|split; [|split]].
  - repeat split.
    + intros e sp1 H1. unfold setup, try. by rewrite H1.
    + intros sp1 e sp2 H1 H2. unfold setup, try. by rewrite H1, H2.
    + intros sp1 sp2 e sp3 H1 H2 H3. unfold setup, try. by rewrite H1, H2, H3.
    + intros sp1 sp2 sp3 H1 H2 H3. unfold setup, try. rewrite H1, H2, H3.
      destruct (decide (HealthCheckURL (config sp3) = "")) as [Hurl|Hurl];
        [|done].
      by destruct (addPath sp3) as [[err|] sp4].
  - apply setup_script_requests.
  - rewrite setup_eq_run_script. apply run_script_trace.
  - rewrite setup_eq_run_script.
    pose proof (run_script_trace (setup_script (config sp)) sp)
      as (_ & _ & _ & _ & Htr).
    destruct (run_script (setup_script (config sp)) sp).1 as [e|]; [|done].
    destruct Htr as (sc1 & r & w & sc2 & e0 & Hsc & Hh & Hacc & Ha & ->).
    exists sc1, r, w, sc2, e0. repeat split; try done.
    pose proof (setup_script_root_cause (config sp)) as Hrc.
    rewrite Hsc, Forall_app, Forall_cons in Hrc.
    destruct Hrc as (_ & Hw & _). apply Hw.
Qed.

Lemma added_policies_app l1 l2 :
  added_policies (l1 ++ l2) = added_policies l1 ++ added_policies l2.
Proof. apply omap_app. Qed.

Lemma setupPolicies_script_policies c :
  added_policies (setupPolicies_script c).*1
  = [createDefaultRoutePolicy; createAnycastIPPolicy;
     createAnycastIPPolicyImport].
Proof. reflexivity. Qed.

(** C3, amended.  [setupPolicies] submits the export-direction and the
    import-direction anycast policies under one and the same name,
    [only-anycast-ip]: when it returns nil, the policies it has added are
    the default-route policy and the two anycast policies, in this order,
    and their names are the two distinct names [only-default-route] and
    [only-anycast-ip]; when it returns an error, the policies added are an
    initial segment of these three. *)
Theorem anycast_policies_one_name sp :
  Name createDefaultRoutePolicy = "only-default-route" ∧
  Name createAnycastIPPolicy = "only-anycast-ip" ∧
  Name createAnycastIPPolicyImport = "only-anycast-ip" ∧
  match (setupPolicies sp).1 with
  | None =>
      added_policies (history (s (setupPolicies sp).2))
      = added_policies (history (s sp))
        ++ [createDefaultRoutePolicy; createAnycastIPPolicy;
            createAnycastIPPolicyImport]
  | Some _ =>
      ∃ k : nat,
        added_policies (history (s (setupPolicies sp).2))
        = added_policies (history (s sp))
          ++ take k [createDefaultRoutePolicy; createAnycastIPPolicy;
                     createAnycastIPPolicyImport]
  end ∧
  (list_to_set (Name <$> [createDefaultRoutePolicy; createAnycastIPPolicy;
                          createAnycastIPPolicyImport]) : gset string)
  = {[ "only-default-route"; "only-anycast-ip" ]}.
Proof.
  split; [done|split; [done|split; [done|split; [|by vm_compute]]]].
  - rewrite setupPolicies_eq_run_script.
    pose proof (run_script_trace (setupPolicies_script (config sp)) sp)
      as (_ & _ & _ & _ & Htr).
    destruct (run_script (setupPolicies_script (config sp)) sp).1 as [e|].
    + destruct Htr as (sc1 & r & w & sc2 & e0 & Hsc & Hh & _).
      exists (length (added_policies (sc1.*1 ++ [r]))).
      rewrite Hh, added_policies_app. f_equal.
      rewrite <- (setupPolicies_script_policies (config sp)), Hsc.
      rewrite fmap_app, fmap_cons. simpl fst.
      replace (sc1.*1 ++ r :: sc2.*1) with ((sc1.*1 ++ [r]) ++ sc2.*1)
        by (by rewrite <- app_assoc).
      by rewrite (added_policies_app (_ ++ _)), take_app_length.
    + destruct Htr as [Hh _].
      by rewrite Hh, added_policies_app, setupPolicies_script_policies.
Qed.

End ControllerClaims.

(** C3, as the spec states it, fails: neither anycast policy carries the
    name the spec gives it, and the three policies [setupPolicies] adds do
    not have three distinct names. *)
Lemma anycast_policies_not_distinctly_named :
  Name createAnycastIPPolicyImport ≠ "only-anycast-ip-import" ∧
  Name createAnycastIPPolicy ≠ "only-anycast-ip-export" ∧
  ¬ NoDup (Name <$> added_policies
                      (history (s (setupPolicies (Sample.speaker [] [])).2))).
Proof.
  split; [discriminate|split; [discriminate|]].
  vm_compute. intros Hnodup.
  apply NoDup_cons in Hnodup as [_ Hnodup].
  apply NoDup_cons in Hnodup as [Hnotin _].
  apply Hnotin. constructor.
Qed.

(** ** The reconciler *)

Section ReconcilerProps.
Context `{GoNet}.

Lemma linuxRouteIsMine_true sp route :
  linuxRouteIsMine sp route = true ↔
  Protocol route = 186 ∧ DstLength route = 0 ∧ Table route = 254 ∧
  rm_Family route = 2 ∧ rm_Type route = 1 ∧ Scope route = 0 ∧
  Priority (Attributes route) = linuxRouteMetric sp.
Proof.
  unfold linuxRouteIsMine, protoBgp, rtTableMain, familyAfInet, typeUnicast,
    scopeGlobal.
  rewrite !andb_true_iff, !bool_decide_eq_true. tauto.
Qed.

Lemma firstMine_Some sp msgs old :
  firstMine sp msgs = inr (Some old) →
  linuxRouteIsMine sp old = true ∧ msg_route old ∈ msgs.
Proof.
  induction msgs as [|[route|] msgs IH]; simpl; [done| |done].
  destruct (linuxRouteIsMine sp route) eqn:Hmine.
  - intros [= ->]. split; [done|]. constructor.
  - intros Hrest. destruct (IH Hrest) as [? ?]. split; [done|].
    by constructor.
Qed.

Lemma firstMine_metric sp sp' msgs :
  linuxRouteMetric sp = linuxRouteMetric sp' →
  firstMine sp msgs = firstMine sp' msgs.
Proof.
  intros Hm. induction msgs as [|[route|] msgs IH]; simpl; [done| |done].
  unfold linuxRouteIsMine. by rewrite Hm, IH.
Qed.

Lemma getLinuxBGPDefaultRoute_eq sp :
  getLinuxBGPDefaultRoute sp
  = (match kernel (conn sp) (executed (conn sp)) dump_request with
     | inl err => inl (Wrapf "failed to get table of routes" err)
     | inr msgs => firstMine sp msgs
     end,
     set_conn sp {| executed := executed (conn sp) ++ [dump_request];
                    kernel := kernel (conn sp) |}).
Proof.
  unfold getLinuxBGPDefaultRoute, Execute. fold dump_request.
  by destruct (kernel (conn sp) (executed (conn sp)) dump_request).
Qed.

Lemma mutations_app l1 l2 : mutations (l1 ++ l2) = mutations l1 ++ mutations l2.
Proof. apply filter_app. Qed.

Lemma mutations_dump l : mutations (l ++ [dump_request]) = mutations l.
Proof. rewrite mutations_app. simpl. apply app_nil_r. Qed.

Lemma collectNextHops_inr paths nhs acc :
  Forall2 (λ p nh, nextHop p = inr nh) paths nhs →
  collectNextHops paths acc = inr (list_to_set nhs ∪ acc).
Proof.
  intros Hall. revert acc.
  induction Hall as [|path nh paths nhs Hnh _ IH]; intros acc; simpl.
  - by rewrite (left_id_L ∅ (∪)).
  - rewrite Hnh, IH. f_equal.
    by rewrite (assoc_L (∪)), (comm_L (∪) (list_to_set nhs)).
Qed.

Lemma routesAreEqual_true oldMultipath (newNextHops : gset string) :
  (∀ oldNextHop, oldNextHop ∈ oldMultipath →
                 IP_String (nh_Gateway oldNextHop) ∈ newNextHops) →
  routesAreEqual oldMultipath newNextHops = true.
Proof.
  intros Hall. unfold routesAreEqual. apply forallb_forall.
  intros nh Hin. apply bool_decide_eq_true, Hall.
  by apply list_elem_of_In.
Qed.

(** The no-op branch of [setSinglePathRoute]. *)
Lemma setSinglePathRoute_noop path sp msgs old :
  kernel (conn sp) (executed (conn sp)) dump_request = inr msgs →
  firstMine sp msgs = inr (Some old) →
  nextHop path = inr (IP_String (Gateway (Attributes old))) →
  setSinglePathRoute path sp
  = (None, set_conn sp {| executed := executed (conn sp) ++ [dump_request];
                          kernel := kernel (conn sp) |}).
Proof.
  intros Hk Hmine Hnh. unfold setSinglePathRoute.
  rewrite Hnh, getLinuxBGPDefaultRoute_eq, Hk, Hmine.
  by rewrite bool_decide_eq_true_2.
Qed.

(** The no-op branch of [setMultiPathRoute]. *)
Lemma setMultiPathRoute_noop paths sp msgs old nhs oldMultipath :
  kernel (conn sp) (executed (conn sp)) dump_request = inr msgs →
  firstMine sp msgs = inr (Some old) →
  Forall2 (λ p nh, nextHop p = inr nh) paths nhs →
  Multipath (Attributes old) = Some oldMultipath →
  length oldMultipath = size (list_to_set nhs : gset string) →
  (∀ oldNextHop, oldNextHop ∈ oldMultipath →
                 IP_String (nh_Gateway oldNextHop)
                 ∈ (list_to_set nhs : gset string)) →
  setMultiPathRoute paths sp
  = (None, set_conn sp {| executed := executed (conn sp) ++ [dump_request];
                          kernel := kernel (conn sp) |}).
Proof.
  intros Hk Hmine Hnhs Hmp Hlen Hmem. unfold setMultiPathRoute.
  rewrite (collectNextHops_inr _ nhs) by done.
  rewrite getLinuxBGPDefaultRoute_eq, Hk, Hmine, Hmp.
  rewrite (right_id_L ∅ (∪)).
  by rewrite bool_decide_eq_true_2, routesAreEqual_true.
Qed.

Lemma setDefaultRoute_eq sp :
  setDefaultRoute sp
  = match bgp list_request sp with
    | (Some err, sp1) => (Some (Wrapf "bgp list path error" err), sp1)
    | (None, sp1) =>
        match defaultRoutes_of sp with
        | [] => (None, sp1)
        | _ :: _ :: _ =>
            (Some (Wrapf "unexpeted number of default routes" ErrUnsupported),
             sp1)
        | [defaultRoute] =>
            match Paths defaultRoute with
            | [path] => setSinglePathRoute path sp1
            | paths => setMultiPathRoute paths sp1
            end
        end
    end.
Proof. reflexivity. Qed.

(** C5.  On a tick on which the RIB has one default destination and the
    kernel's route of the speaker agrees with it (see [agree]),
    [setDefaultRoute] returns nil and executes one netlink request only,
    the dump of the routes: no route is created, replaced or deleted. *)
Theorem reconciler_noop sp d msgs old :
  answer (s sp) (history (s sp)) list_request = None →
  defaultRoutes_of sp = [d] →
  kernel (conn sp) (executed (conn sp)) dump_request = inr msgs →
  firstMine sp msgs = inr (Some old) →
  agree d old →
  (setDefaultRoute sp).1 = None ∧
  executed (conn (setDefaultRoute sp).2)
  = executed (conn sp) ++ [dump_request] ∧
  mutations (executed (conn (setDefaultRoute sp).2))
  = mutations (executed (conn sp)).
Proof.
  intros Hlist Hd Hk Hmine Hagree.
  rewrite setDefaultRoute_eq, bgp_eq, Hlist, Hd.
  set (sp1 := set_s sp _).
  assert (Hk1 : kernel (conn sp1) (executed (conn sp1)) dump_request
                = inr msgs) by exact Hk.
  assert (Hmine1 : firstMine sp1 msgs = inr (Some old))
    by (by rewrite (firstMine_metric sp1 sp)).
  assert (Hnoop :
            match Paths d with
            | [path] => setSinglePathRoute path sp1
            | paths => setMultiPathRoute paths sp1
            end
            = (None,
               set_conn sp1
                 {| executed := executed (conn sp1) ++ [dump_request];
                    kernel := kernel (conn sp1) |})).
  { unfold agree in Hagree.
    destruct (Paths d) as [|path [|path' paths]].
    - destruct Hagree as (nhs & mp & Hnhs & Hmp & Hlen & Hmem).
      by apply (setMultiPathRoute_noop [] sp1 msgs old nhs mp).
    - by apply (setSinglePathRoute_noop path sp1 msgs old).
    - destruct Hagree as (nhs & mp & Hnhs & Hmp & Hlen & Hmem).
      by apply (setMultiPathRoute_noop _ sp1 msgs old nhs mp). }
  rewrite Hnoop. simpl.
  split; [done|]. split; [done|]. apply mutations_dump.
Qed.

(** C6, amended.  When the table holds no destination for the default
    prefix, a tick leaves the netlink connection untouched and returns
    nil exactly when the listing succeeded (when [ListPath] fails, the
    tick returns that error, wrapped); when the table holds more than one
    such destination, the tick returns an error and leaves the netlink
    connection untouched, whatever the listing answered. *)
Theorem setDefaultRoute_zero_or_many sp :
  (defaultRoutes_of sp = [] →
   (setDefaultRoute sp).1
   = Wrapf "bgp list path error"
     <$> answer (s sp) (history (s sp)) list_request ∧
   ((setDefaultRoute sp).1 = None ↔
    answer (s sp) (history (s sp)) list_request = None) ∧
   conn (setDefaultRoute sp).2 = conn sp) ∧
  ((length (defaultRoutes_of sp) > 1)%nat →
   is_Some (setDefaultRoute sp).1 ∧ conn (setDefaultRoute sp).2 = conn sp).
Proof.
  rewrite setDefaultRoute_eq, bgp_eq.
  destruct (answer (s sp) (history (s sp)) list_request) as [err|]; simpl.
  - split; [by intros _|]. intros _. eauto.
  - split.
    + by intros ->.
    + intros Hlen. destruct (defaultRoutes_of sp) as [|d1 [|d2 ds]];
        simpl in Hlen; [lia|lia|]. simpl. eauto.
Qed.

(** Whatever the server answers, a tick that does not find exactly one
    default destination executes no netlink request. *)
Lemma setDefaultRoute_untouched sp :
  length (defaultRoutes_of sp) ≠ 1%nat →
  conn (setDefaultRoute sp).2 = conn sp.
Proof.
  intros Hlen. rewrite setDefaultRoute_eq, bgp_eq.
  destruct (answer (s sp) (history (s sp)) list_request); [done|].
  by destruct (defaultRoutes_of sp) as [|d1 [|d2 ds]].
Qed.

Lemma own_requests_only_refl sp : own_requests_only sp sp.
Proof. split; [done|]. exists []. by rewrite app_nil_r. Qed.

Lemma own_request_metric sp sp' r :
  linuxRouteMetric sp' = linuxRouteMetric sp →
  own_request sp' r → own_request sp r.
Proof.
  intros Hm [->|[Hty Hmine]]; [by left|right].
  split; [done|]. unfold linuxRouteIsMine in *. by rewrite <- Hm.
Qed.

Lemma own_requests_only_trans sp1 sp2 sp3 :
  own_requests_only sp1 sp2 → own_requests_only sp2 sp3 →
  own_requests_only sp1 sp3.
Proof.
  intros [Hm12 (new1 & He1 & Hn1)] [Hm23 (new2 & He2 & Hn2)].
  split; [congruence|].
  exists (new1 ++ new2). rewrite He2, He1, app_assoc. split; [done|].
  apply Forall_app. split; [done|].
  eapply Forall_impl; [exact Hn2|].
  intros r. by apply own_request_metric.
Qed.

Lemma own_requests_only_bgp r sp : own_requests_only sp (bgp r sp).2.
Proof. split; [done|]. exists []. simpl. by rewrite app_nil_r. Qed.

Lemma own_requests_only_dump sp :
  own_requests_only sp (getLinuxBGPDefaultRoute sp).2.
Proof.
  rewrite getLinuxBGPDefaultRoute_eq. split; [done|].
  exists [dump_request]. split; [done|]. apply Forall_singleton. by left.
Qed.

(** One more request on the connection, with a message carrying the
    speaker's tuple. *)
Lemma own_requests_only_Execute sp gw mp type flags :
  type = newRoute ∨ type = deleteRoute →
  own_requests_only sp
    (set_conn sp
       (Execute {| rm_Family := familyAfInet; DstLength := 0;
                   Table := rtTableMain; Protocol := protoBgp; Scope := 0;
                   rm_Type := typeUnicast;
                   Attributes := {| Gateway := gw;
                                    Priority := linuxRouteMetric sp;
                                    Multipath := mp |} |}
                type flags (conn sp)).2).
Proof.
  intros Hty. split; [done|]. eexists [_]. split; [done|].
  apply Forall_singleton. right. split; [done|].
  apply linuxRouteIsMine_true. done.
Qed.

Lemma own_requests_only_setSinglePathRoute path sp :
  own_requests_only sp (setSinglePathRoute path sp).2.
Proof.
  unfold setSinglePathRoute.
  destruct (nextHop path) as [err|newGateway];
    [apply own_requests_only_refl|].
  pose proof (own_requests_only_dump sp) as Hdump.
  destruct (getLinuxBGPDefaultRoute sp) as [[err|oldDefaultRoute] sp1];
    [done|]. simpl in Hdump.
  destruct (match oldDefaultRoute with Some _ => _ | None => _ end); [done|].
  destruct (IP_is_nil (To4 (ParseIP newGateway))); [done|].
  eapply own_requests_only_trans; [exact Hdump|].
  apply (own_requests_only_Execute sp1 _ None newRoute replaceFlags).
  by left.
Qed.

Lemma own_requests_only_setMultiPathRoute paths sp :
  own_requests_only sp (setMultiPathRoute paths sp).2.
Proof.
  unfold setMultiPathRoute.
  destruct (collectNextHops paths ∅) as [err|newNextHops];
    [apply own_requests_only_refl|].
  pose proof (own_requests_only_dump sp) as Hdump.
  destruct (getLinuxBGPDefaultRoute sp) as [[err|oldDefaultRoute] sp1];
    [done|]. simpl in Hdump.
  destruct (match oldDefaultRoute with Some _ => _ | None => _ end); [done|].
  destruct (buildNextHops (elements newNextHops) []) as [err|nextHops];
    [done|].
  eapply own_requests_only_trans; [exact Hdump|].
  apply (own_requests_only_Execute sp1 IP_nil (Some nextHops) newRoute
           replaceFlags).
  by left.
Qed.

Lemma own_requests_only_setDefaultRoute sp :
  own_requests_only sp (setDefaultRoute sp).2.
Proof.
  rewrite setDefaultRoute_eq.
  pose proof (own_requests_only_bgp list_request sp) as Hbgp.
  destruct (bgp list_request sp) as [[err|] sp1]; [done|]. simpl in Hbgp.
  destruct (defaultRoutes_of sp) as [|d [|d' ds]]; [done| |done].
  eapply own_requests_only_trans; [exact Hbgp|].
  destruct (Paths d) as [|path [|path' paths]];
    first [apply own_requests_only_setSinglePathRoute
          |apply own_requests_only_setMultiPathRoute].
Qed.

Lemma own_requests_only_cleanupDefaultRoute sp :
  own_requests_only sp (cleanupDefaultRoute sp).2.
Proof.
  unfold cleanupDefaultRoute.
  pose proof (own_requests_only_dump sp) as Hdump.
  pose proof (getLinuxBGPDefaultRoute_eq sp) as Heq.
  destruct (getLinuxBGPDefaultRoute sp) as [[err|[oldDefaultRoute|]] sp1];
    [done| |done]. simpl in Hdump.
  eapply own_requests_only_trans; [exact Hdump|].
  injection Heq as _ ->.
  pose proof (own_requests_only_Execute
                (set_conn sp {| executed := executed (conn sp) ++ [dump_request];
                                kernel := kernel (conn sp) |})
                IP_nil None deleteRoute
                (Z.lor netlink_Request netlink_Acknowledge)
                (or_intror eq_refl)) as Hex.
  simpl in Hex. simpl.
  by destruct (kernel (conn sp) _ _).
Qed.

Lemma own_requests_only_UpdateFIB_loop evs sp :
  own_requests_only sp (UpdateFIB_loop evs sp).2.
Proof.
  revert sp. induction evs as [|[|] evs IH]; intros sp; simpl.
  - apply own_requests_only_refl.
  - pose proof (own_requests_only_cleanupDefaultRoute sp) as Hc.
    by destruct (cleanupDefaultRoute sp).
  - eapply own_requests_only_trans; [|apply IH].
    apply own_requests_only_setDefaultRoute.
Qed.

(** C7.  [linuxRouteIsMine] holds of a route message exactly when its
    protocol is 186, its destination length 0, its table 254, its family
    2 (AF_INET), its type 1 (unicast), its scope 0 (global) and its
    priority the speaker's metric; the route [getLinuxBGPDefaultRoute]
    selects is one of the dumped routes for which all seven hold; and
    every request the loop of [UpdateFIB] executes is the dump or a
    NEWROUTE or DELROUTE whose route message satisfies the predicate. *)
Theorem linuxRouteIsMine_iff sp route :
  (linuxRouteIsMine sp route = true ↔
   Protocol route = 186 ∧ DstLength route = 0 ∧ Table route = 254 ∧
   rm_Family route = 2 ∧ rm_Type route = 1 ∧ Scope route = 0 ∧
   Priority (Attributes route) = linuxRouteMetric sp) ∧
  (∀ old sp1,
     getLinuxBGPDefaultRoute sp = (inr (Some old), sp1) →
     (∃ msgs, kernel (conn sp) (executed (conn sp)) dump_request = inr msgs ∧
              msg_route old ∈ msgs) ∧
     Protocol old = 186 ∧ DstLength old = 0 ∧ Table old = 254 ∧
     rm_Family old = 2 ∧ rm_Type old = 1 ∧ Scope old = 0 ∧
     Priority (Attributes old) = linuxRouteMetric sp) ∧
  (∀ evs, ∃ new,
     executed (conn (UpdateFIB_loop evs sp).2) = executed (conn sp) ++ new ∧
     Forall (own_request sp) new).
Proof.
  split; [apply linuxRouteIsMine_true|]. split.
  - intros old sp1. rewrite getLinuxBGPDefaultRoute_eq.
    destruct (kernel (conn sp) (executed (conn sp)) dump_request)
      as [err|msgs]; [intros [=]|].
    intros [= Hmine _]. apply firstMine_Some in Hmine as [Hmine Hin].
    split; [by exists msgs|]. by apply linuxRouteIsMine_true.
  - intros evs. apply own_requests_only_UpdateFIB_loop.
Qed.

End ReconcilerProps.

(** ** More on the health checker *)

Lemma Run_loop_app_Tick es evs hc :
  (Run_loop ((Tick <$> es) ++ evs) hc).1.1
  = (Run_loop evs (Run_loop (Tick <$> es) hc).1.1).1.1 ∧
  (Run_loop ((Tick <$> es) ++ evs) hc).1.2
  = (Run_loop (Tick <$> es) hc).1.2
    ++ (Run_loop evs (Run_loop (Tick <$> es) hc).1.1).1.2 ∧
  (Run_loop ((Tick <$> es) ++ evs) hc).2
  = (Run_loop evs (Run_loop (Tick <$> es) hc).1.1).2.
Proof.
  revert hc. induction es as [|e es IH]; intros hc; [done|].
  rewrite fmap_cons, <- app_comm_cons. simpl.
  destruct (tick e hc) as [hc1 cbs]. specialize (IH hc1).
  destruct (Run_loop ((Tick <$> es) ++ evs) hc1) as [[hc2 rest] r].
  destruct (Run_loop (Tick <$> es) hc1) as [[hc3 rest3] r3].
  simpl in *. destruct IH as (-> & -> & ->). done.
Qed.

Lemma Run_loop_returned evs hc :
  (Run_loop evs hc).2 = if existsb is_CtxDone evs then Some None else None.
Proof.
  revert hc. induction evs as [|[|e] evs IH]; intros hc; simpl; [done..|].
  destruct (tick e hc) as [hc1 cbs]. specialize (IH hc1).
  by destruct (Run_loop evs hc1) as [[hc2 rest] r].
Qed.

Lemma Run_loop_after_CtxDone pre post hc :
  Run_loop (pre ++ CtxDone :: post) hc = Run_loop (pre ++ [CtxDone]) hc.
Proof.
  revert hc. induction pre as [|[|e] pre IH]; intros hc; simpl; [done..|].
  destruct (tick e hc) as [hc1 cbs]. by rewrite IH.
Qed.

(** X1.  [Run] returns exactly when the context is cancelled, and what it
    returns is nil: no probe error and no callback error ever makes it
    return.  What is delivered after the cancellation has no effect. *)
Theorem Run_returns_on_cancel_only evs hc :
  (Run evs hc).2 = (if existsb is_CtxDone evs then Some None else None) ∧
  (∀ pre post, evs = pre ++ CtxDone :: post →
               Run evs hc = Run (pre ++ [CtxDone]) hc).
Proof.
  unfold Run. split.
  - destruct (decide (u hc = "")); [done|]. apply Run_loop_returned.
  - intros pre post ->. destruct (decide (u hc = "")).
    + by rewrite !existsb_app; simpl; rewrite !orb_true_r.
    + apply Run_loop_after_CtxDone.
Qed.

Lemma successes_cons e es :
  successes (e :: es)
  = if decide (probe e = None) then S (successes es) else successes es.
Proof.
  unfold successes. rewrite filter_cons. by destruct (decide (probe e = None)).
Qed.

Lemma Run_loop_pair evs hc st cbs :
  (Run_loop evs hc).1.1 = st → (Run_loop evs hc).1.2 = cbs →
  (Run_loop evs hc).1 = (st, cbs).
Proof. destruct (Run_loop evs hc) as [[? ?] ?]. simpl. by intros -> ->. Qed.

(** While the checker is Unhealthy and below the threshold, ticks only
    count the successful probes. *)
Lemma Run_loop_counting es hc :
  status hc = Unhealthy → 0 ≤ okCounter hc →
  okCounter hc + Z.of_nat (successes es) ≤ healthyThreshold →
  (Run_loop (Tick <$> es) hc).1
  = ({| status := Unhealthy; u := u hc;
        okCounter := okCounter hc + Z.of_nat (successes es) |},
     replicate (length es) []).
Proof.
  unfold healthyThreshold. revert hc.
  induction es as [|e es IH]; intros [st url c]; simpl status; simpl okCounter;
    simpl u; intros -> Hc Hle.
  - unfold successes. simpl. by rewrite Z.add_0_r.
  - rewrite successes_cons in *. rewrite fmap_cons.
    assert (Htick : tick e {| status := Unhealthy; u := url; okCounter := c |}
                    = ({| status := Unhealthy; u := url;
                          okCounter :=
                            if decide (probe e = None) then c + 1 else c |},
                       [])).
    { destruct (decide (probe e = None)) as [Hp|Hp].
      - apply tick_ok_below; [done..|].
        unfold healthyThreshold. simpl. lia.
      - destruct (tick_cases e {| status := Unhealthy; u := url;
                                  okCounter := c |});
          simpl in *; congruence. }
    apply Run_loop_pair.
    + rewrite Run_loop_Tick_state, Htick. simpl fst.
      rewrite IH; simpl; [|done|destruct (decide (probe e = None)); lia..].
      f_equal. destruct (decide (probe e = None)); lia.
    + rewrite Run_loop_Tick, Htick. simpl fst; simpl snd.
      rewrite IH; simpl; [|done|destruct (decide (probe e = None)); lia..].
      done.
Qed.

(** X2.  While Unhealthy, a failed probe does not reset the count: from
    the state built by [NewHealthCheck], after any ticks with at most
    three successful probes among them (in a row or not) the counter is
    the number of successes and no callback has been invoked; and once
    three successes have been counted, the next successful probe invokes
    [cbHealthy]. *)
Theorem successes_counted_across_failures parsed hc es e :
  NewHealthCheck parsed = inr hc →
  (successes es ≤ 3)%nat →
  (Run_loop (Tick <$> es) hc).1
  = ({| status := Unhealthy; u := u hc;
        okCounter := Z.of_nat (successes es) |},
     replicate (length es) []) ∧
  (successes es = 3%nat → probe e = None →
   (tick e (Run_loop (Tick <$> es) hc).1.1).2 = [cbHealthy]).
Proof.
  intros Hnew Hle. apply NewHealthCheck_inr in Hnew as [Hs Hc].
  pose proof (Run_loop_counting es hc Hs) as Hrun.
  rewrite Hc in Hrun. unfold healthyThreshold in Hrun.
  rewrite Hrun by lia. simpl. split; [done|].
  intros H3 Hp. apply tick_ok_at_threshold; [done..|].
  simpl. unfold healthyThreshold. lia.
Qed.

Lemma succeeded_flips e hc :
  match succeeded e hc with
  | [] => status (tick e hc).1 = status hc
  | [cb] => cb = flipping_callback (status hc) ∧
            status (tick e hc).1 = status_after cb
  | _ => False
  end.
Proof.
  unfold succeeded.
  destruct (tick_cases e hc) as [? Hs Hc|? Hs Hc|? Hs ? Hc|? Hs ? Hc|? Hs ?|? Hs|? Hs];
    simpl; try rewrite Hc; try rewrite Hs; try done.
  - by destruct (cb_result e).
  - by destruct (cb_result e).
  - by destruct (cb_result e).
  - by destruct (cb_result e).
  - by destruct (cb_result e).
Qed.

Lemma Run_loop_Tick_cons_state e es hc :
  (Run_loop (Tick <$> e :: es) hc).1.1
  = (Run_loop (Tick <$> es) (tick e hc).1).1.1.
Proof. rewrite fmap_cons. apply Run_loop_Tick_state. Qed.

(** X3.  Over any ticks from any state, the callbacks that were invoked
    and returned nil alternate between [cbHealthy] and [cbUnhealthy],
    starting with the one that flips the current status; and the status
    at the end is the one the last of them leads to (the initial status
    when there is none). *)
Theorem succeeded_callbacks_alternate es hc :
  alternates (flipping_callback (status hc)) (succeeded_callbacks es hc) = true ∧
  status (Run_loop (Tick <$> es) hc).1.1
  = match last (succeeded_callbacks es hc) with
    | Some cb => status_after cb
    | None => status hc
    end.
Proof.
  revert hc. induction es as [|e es IH]; intros hc; [done|].
  rewrite Run_loop_Tick_cons_state. simpl succeeded_callbacks.
  specialize (IH (tick e hc).1). destruct IH as [IHalt IHlast].
  pose proof (succeeded_flips e hc) as Hflip.
  destruct (succeeded e hc) as [|cb [|cb' l]]; [| |done].
  - simpl. rewrite Hflip in IHalt, IHlast. done.
  - destruct Hflip as [-> Hst]. rewrite Hst in IHalt, IHlast.
    simpl app. split.
    + simpl. rewrite bool_decide_eq_true_2 by done. simpl.
      by destruct (status hc).
    + rewrite IHlast.
      destruct (succeeded_callbacks es (tick e hc).1) as [|cb1 l1] eqn:Hl;
        [done|].
      rewrite last_cons_cons.
      destruct (last (cb1 :: l1)) as [cb2|] eqn:Hlast; [done|].
      by apply last_None in Hlast.
Qed.

(** X4.  A tick whose callback returns an error leaves the state as it
    was, so over ticks that each invoke the callback [cb] and see it
    fail, the state never changes and [cb] is invoked again on every
    tick. *)
Theorem failed_callback_is_retried es hc cb :
  Forall (λ e, (tick e hc).2 = [cb] ∧ cb_result e ≠ None) es →
  (Run_loop (Tick <$> es) hc).1 = (hc, replicate (length es) [cb]).
Proof.
  induction 1 as [|e es [Hcb Hfail] _ IH]; [done|].
  assert (Hsame : (tick e hc).1 = hc).
  { destruct (tick_cases e hc); simpl in *; congruence. }
  rewrite fmap_cons. apply Run_loop_pair.
  - by rewrite Run_loop_Tick_state, Hsame, IH.
  - by rewrite Run_loop_Tick, Hsame, Hcb, IH.
Qed.

(** ** The checker wired to the controller *)

Section GateProps.
Context `{GoNet}.

Lemma advertised_after_app ans h l1 l2 b :
  advertised_after ans h (l1 ++ l2) b
  = advertised_after ans (h ++ l1) l2 (advertised_after ans h l1 b).
Proof.
  revert h b. induction l1 as [|r l1 IH]; intros h b; simpl.
  - by rewrite app_nil_r.
  - by rewrite IH, <- app_assoc.
Qed.

(** The callback a tick invokes does not depend on what the callback
    returns. *)
Lemma tick_callbacks_indep p r1 r2 hc :
  (tick {| probe := p; cb_result := r1 |} hc).2
  = (tick {| probe := p; cb_result := r2 |} hc).2.
Proof.
  unfold tick. simpl.
  repeat case_bool_decide; by destruct r1, r2.
Qed.

Lemma gate_tick_step p hc sp :
  let st' := gate_tick p (hc, sp) in
  config st'.2 = config sp ∧ conn st'.2 = conn sp ∧
  answer (s st'.2) = answer (s sp) ∧
  ∃ new,
    history (s st'.2) = history (s sp) ++ new ∧
    Forall (λ r, r = AddPath (anycast_path (config sp)) ∨
                 r = DeletePath (anycast_path (config sp))) new ∧
    bool_decide (status st'.1 = Healthy)
    = advertised_after (answer (s sp)) (history (s sp)) new
                       (bool_decide (status hc = Healthy)).
Proof.
  unfold gate_tick. simpl fst; simpl snd.
  destruct (tick_cases {| probe := p; cb_result := None |} hc)
    as [Hp Hs _|Hp Hs Hc|Hp Hs Hthr _|Hp Hs Hthr Hc|Hp Hs Hthr|Hp Hs|Hp Hs];
    simpl in Hp; simpl snd; try done.
  - (* withdraw *)
    unfold callback_method, deletePath. rewrite anycastPath_eq, bgp_eq.
    repeat split; try done.
    exists [DeletePath (anycast_path (config sp))]. simpl.
    split; [done|]. split; [apply Forall_singleton; by right|].
    destruct (tick_cases
                {| probe := p;
                   cb_result := answer (s sp) (history (s sp))
                                  (DeletePath (anycast_path (config sp))) |}
                hc) as [? ? Hc|? ? Hc|? ? ? Hc|? ? ? Hc|? ? ?|? ?|? ?];
      simpl in *; try congruence; rewrite ?Hc, ?Hs; try done.
    by destruct (answer _ _ _).
  - (* advertise *)
    unfold callback_method, addPath. rewrite anycastPath_eq, bgp_eq.
    repeat split; try done.
    exists [AddPath (anycast_path (config sp))]. simpl.
    split; [done|]. split; [apply Forall_singleton; by left|].
    destruct (tick_cases
                {| probe := p;
                   cb_result := answer (s sp) (history (s sp))
                                  (AddPath (anycast_path (config sp))) |}
                hc) as [? ? Hc|? ? Hc|? ? ? Hc|? ? ? Hc|? ? ?|? ?|? ?];
      simpl in *; try congruence; try lia; rewrite ?Hc, ?Hs; try done.
    by destruct (answer _ _ _).
  - (* count *)
    repeat split; try done. exists []. simpl. rewrite app_nil_r, Hs. done.
  - repeat split; try done. exists []. simpl. by rewrite app_nil_r.
  - repeat split; try done. exists []. simpl. by rewrite app_nil_r.
Qed.

(** X5.  With [addPath] and [deletePath] as the checker's callbacks, as
    [Speaker.Run] sets them, the ticks of the checker send the server
    nothing but [AddPath] and [DeletePath] requests for one and the same
    path, the anycast path of the configuration; and after any number of
    ticks the status is Healthy exactly when the path is advertised, that
    is, when the last of these requests the server accepted is an
    [AddPath] (the netlink connection is never touched). *)
Theorem gate_status_tracks_advertisement ps hc sp :
  conn (gate_run ps (hc, sp)).2 = conn sp ∧
  ∃ new,
    history (s (gate_run ps (hc, sp)).2) = history (s sp) ++ new ∧
    Forall (λ r, r = AddPath (anycast_path (config sp)) ∨
                 r = DeletePath (anycast_path (config sp))) new ∧
    bool_decide (status (gate_run ps (hc, sp)).1 = Healthy)
    = advertised_after (answer (s sp)) (history (s sp)) new
                       (bool_decide (status hc = Healthy)).
Proof.
  unfold gate_run. revert hc sp.
  induction ps as [|p ps IH]; intros hc sp; simpl.
  - split; [done|]. exists []. simpl. by rewrite app_nil_r.
  - pose proof (gate_tick_step p hc sp) as Hstep. simpl in Hstep.
    destruct (gate_tick p (hc, sp)) as [hc1 sp1]. simpl in Hstep.
    destruct Hstep as (Hcfg & Hconn & Hans & new1 & Hh1 & Hall1 & Hadv1).
    destruct (IH hc1 sp1) as (Hconn2 & new2 & Hh2 & Hall2 & Hadv2).
    split; [congruence|].
    exists (new1 ++ new2). rewrite Hh2, Hh1, <- app_assoc.
    split; [done|]. split.
    + apply Forall_app. split; [done|]. by rewrite <- Hcfg.
    + by rewrite advertised_after_app, <- Hadv1, <- Hh1, <- Hans.
Qed.

End GateProps.


(** ** More on the reconciler *)

Section ReconcilerMore.
Context `{GoNet}.

Lemma firstMine_cases sp msgs :
  match firstMine sp msgs with
  | inr (Some old) =>
      ∃ pre post,
        msgs = (msg_route <$> pre) ++ msg_route old :: post ∧
        Forall (λ r, linuxRouteIsMine sp r = false) pre ∧
        linuxRouteIsMine sp old = true
  | inr None =>
      ∃ routes,
        msgs = msg_route <$> routes ∧
        Forall (λ r, linuxRouteIsMine sp r = false) routes
  | inl err =>
      err = Wrapf "unexpected rtnetlink message" ErrUnsupported ∧
      ∃ pre post,
        msgs = (msg_route <$> pre) ++ msg_other :: post ∧
        Forall (λ r, linuxRouteIsMine sp r = false) pre
  end.
Proof.
  induction msgs as [|[route|] msgs IH]; simpl.
  - by exists [].
  - destruct (linuxRouteIsMine sp route) eqn:Hmine.
    + by exists [], msgs.
    + destruct (firstMine sp msgs) as [err|[old|]].
      * destruct IH as (-> & pre & post & -> & Hpre).
        split; [done|]. exists (route :: pre), post. split; [done|].
        by constructor.
      * destruct IH as (pre & post & -> & Hpre & Hold).
        exists (route :: pre), post. split; [done|]. split; [|done].
        by constructor.
      * destruct IH as (routes & -> & Hall).
        exists (route :: routes). split; [done|]. by constructor.
  - split; [done|]. by exists [], msgs.
Qed.

(** X6.  [getLinuxBGPDefaultRoute] sends one request, the dump, and reads
    the reply in order: it returns the first route message that satisfies
    [linuxRouteIsMine]; nil when every message is a route that does not;
    and an error that wraps [ErrUnsupported] when a message that is not a
    route comes before any such route (routes after it are not
    looked at). *)
Theorem getLinuxBGPDefaultRoute_first_match sp msgs :
  kernel (conn sp) (executed (conn sp)) dump_request = inr msgs →
  (getLinuxBGPDefaultRoute sp).2 = after_dump sp ∧
  match (getLinuxBGPDefaultRoute sp).1 with
  | inr (Some old) =>
      ∃ pre post,
        msgs = (msg_route <$> pre) ++ msg_route old :: post ∧
        Forall (λ r, linuxRouteIsMine sp r = false) pre ∧
        linuxRouteIsMine sp old = true
  | inr None =>
      ∃ routes,
        msgs = msg_route <$> routes ∧
        Forall (λ r, linuxRouteIsMine sp r = false) routes
  | inl err =>
      root_cause err = ErrUnsupported ∧
      ∃ pre post,
        msgs = (msg_route <$> pre) ++ msg_other :: post ∧
        Forall (λ r, linuxRouteIsMine sp r = false) pre
  end.
Proof.
  intros Hk. rewrite getLinuxBGPDefaultRoute_eq, Hk. simpl.
  split; [done|].
  pose proof (firstMine_cases sp msgs) as Hcases.
  destruct (firstMine sp msgs) as [err|[old|]]; [|done..].
  destruct Hcases as [-> Hrest]. done.
Qed.

Lemma firstMine_after_dump sp msgs :
  firstMine (after_dump sp) msgs = firstMine sp msgs.
Proof. by apply firstMine_metric. Qed.

Lemma nextHop_attrs_cases attrs :
  match nextHop_attrs attrs with
  | inr nh =>
      ∃ pre post,
        attrs = pre ++ packed (NextHopAttribute nh) :: post ∧
        Forall (λ a, MessageIs a name_NextHopAttribute = false) pre
  | inl err =>
      (err = Errorf "faild to extract next hop from gobgp api.Path" ∧
       Forall (λ a, MessageIs a name_NextHopAttribute = false) attrs) ∨
      (∃ pre post,
         attrs = pre ++ undecodable name_NextHopAttribute err :: post ∧
         Forall (λ a, MessageIs a name_NextHopAttribute = false) pre)
  end.
Proof.
  induction attrs as [|attr attrs IH]; simpl.
  - left. done.
  - destruct (MessageIs attr name_NextHopAttribute) eqn:His.
    + destruct attr as [[pfx len|origin|nh|]|n err]; simpl in His;
        try discriminate.
      * simpl. by exists [], attrs.
      * apply bool_decide_eq_true in His as ->. simpl.
        right. by exists [], attrs.
    + destruct (nextHop_attrs attrs) as [err|nh].
      * destruct IH as [[-> Hall]|(pre & post & -> & Hpre)].
        -- left. split; [done|]. by constructor.
        -- right. exists (attr :: pre), post. split; [done|]. by constructor.
      * destruct IH as (pre & post & -> & Hpre).
        exists (attr :: pre), post. split; [done|]. by constructor.
Qed.

(** X7.  [nextHop] returns the value of the first attribute of the path
    whose type is [NextHopAttribute], whatever follows it; it returns an
    error when the path has no such attribute, and the decoding error
    when the first such attribute does not decode. *)
Theorem nextHop_first_attribute path :
  match nextHop path with
  | inr nh =>
      ∃ pre post,
        Pattrs path = pre ++ packed (NextHopAttribute nh) :: post ∧
        Forall (λ a, MessageIs a name_NextHopAttribute = false) pre
  | inl err =>
      (err = Errorf "faild to extract next hop from gobgp api.Path" ∧
       Forall (λ a, MessageIs a name_NextHopAttribute = false) (Pattrs path)) ∨
      (∃ pre post,
         Pattrs path = pre ++ undecodable name_NextHopAttribute err :: post ∧
         Forall (λ a, MessageIs a name_NextHopAttribute = false) pre)
  end.
Proof. apply nextHop_attrs_cases. Qed.

End ReconcilerMore.


Section ReconcilerReplace.
Context `{GoNet}.

Lemma routesAreEqual_iff oldMultipath (newNextHops : gset string) :
  routesAreEqual oldMultipath newNextHops = true ↔
  ∀ oldNextHop, oldNextHop ∈ oldMultipath →
                IP_String (nh_Gateway oldNextHop) ∈ newNextHops.
Proof.
  split; [|apply routesAreEqual_true].
  unfold routesAreEqual. rewrite forallb_forall. intros Hall nh Hin.
  apply list_elem_of_In in Hin. specialize (Hall nh Hin).
  by apply bool_decide_eq_true in Hall.
Qed.

Lemma Forall2_nextHop_inj paths nhs nhs' :
  Forall2 (λ p nh, nextHop p = inr nh) paths nhs →
  Forall2 (λ p nh, nextHop p = inr nh) paths nhs' → nhs = nhs'.
Proof.
  intros Hall. revert nhs'.
  induction Hall as [|p nh paths nhs Hnh _ IH]; intros nhs' Hall';
    inversion Hall' as [|? nh' ? nhs'' Hnh' Hrest]; subst; [done|].
  f_equal; [congruence|]. by apply IH.
Qed.

(** [agree] is the test the two branches run. *)
Lemma agree_iff_tests d old nhs :
  Forall2 (λ p nh, nextHop p = inr nh) (Paths d) nhs →
  agree d old ↔
  match nhs with
  | [nh] => same_gateway (Some old) nh = true
  | _ => same_multipath (Some old) (list_to_set nhs) = true
  end.
Proof.
  intros Hall. unfold agree, same_gateway, same_multipath.
  assert (Hmulti :
    (∃ nhs' mp,
        Forall2 (λ p nh, nextHop p = inr nh) (Paths d) nhs' ∧
        Multipath (Attributes old) = Some mp ∧
        length mp = size (list_to_set nhs' : gset string) ∧
        ∀ nh, nh ∈ mp →
              IP_String (nh_Gateway nh) ∈ (list_to_set nhs' : gset string))
    ↔ match Multipath (Attributes old) with
      | Some mp =>
          bool_decide (length mp = size (list_to_set nhs : gset string))
          && routesAreEqual mp (list_to_set nhs)
      | None => false
      end = true).
  { split.
    - intros (nhs' & mp & Hall' & -> & Hlen & Hmem).
      rewrite (Forall2_nextHop_inj _ _ _ Hall Hall').
      apply andb_true_iff. split; [by apply bool_decide_eq_true|].
      by apply routesAreEqual_iff.
    - destruct (Multipath (Attributes old)) as [mp|]; [|done].
      intros [Hlen Hmem]%andb_true_iff.
      exists nhs, mp. repeat split; try done.
      + by apply bool_decide_eq_true in Hlen.
      + by apply routesAreEqual_iff. }
  destruct Hall as [|p nh paths nhs Hnh Hrest]; [done|].
  destruct Hrest as [|p' nh' paths' nhs' Hnh' Hrest']; [|done].
  rewrite Hnh, bool_decide_eq_true. split; [by intros [= ->]|by intros ->].
Qed.

Lemma buildNextHops_ok gws nextHops :
  Forall (λ gw, is_ipv4 gw = true) gws →
  buildNextHops gws nextHops
  = inr (nextHops ++ ((λ gw, {| nh_Gateway := ParseIP gw |}) <$> gws)).
Proof.
  intros Hall. revert nextHops.
  induction Hall as [|gw gws Hgw _ IH]; intros nextHops; simpl.
  - by rewrite app_nil_r.
  - unfold is_ipv4 in Hgw. apply negb_true_iff in Hgw. rewrite Hgw, IH.
    by rewrite <- app_assoc.
Qed.

Lemma buildNextHops_err gws nextHops :
  Exists (λ gw, is_ipv4 gw = false) gws →
  buildNextHops gws nextHops = inl (Wrapf "gateway is not ipv4" ErrUnsupported).
Proof.
  intros Hex. revert nextHops.
  induction Hex as [gw gws Hgw|gw gws _ IH]; intros nextHops; simpl.
  - unfold is_ipv4 in Hgw. apply negb_false_iff in Hgw. by rewrite Hgw.
  - by destruct (IP_is_nil (To4 (ParseIP gw))).
Qed.

(** [setSinglePathRoute] past its test. *)
Lemma setSinglePathRoute_replace path sp newGateway msgs o :
  nextHop path = inr newGateway →
  kernel (conn sp) (executed (conn sp)) dump_request = inr msgs →
  firstMine sp msgs = inr o →
  same_gateway o newGateway = false →
  setSinglePathRoute path sp
  = if is_ipv4 newGateway then
      (reply_error
         (kernel (conn sp) (executed (conn sp) ++ [dump_request])
                 (replace_request sp (ParseIP newGateway) None)),
       set_conn sp
         {| executed := executed (conn sp)
                        ++ [dump_request;
                            replace_request sp (ParseIP newGateway) None];
            kernel := kernel (conn sp) |})
    else (Some (Wrapf "gateway is not ipv4" ErrUnsupported), after_dump sp).
Proof.
  intros Hnh Hk Hmine Htest. unfold setSinglePathRoute.
  rewrite Hnh, getLinuxBGPDefaultRoute_eq, Hk, Hmine.
  unfold same_gateway in Htest. rewrite Htest.
  unfold is_ipv4. destruct (IP_is_nil (To4 (ParseIP newGateway))); [done|].
  simpl. unfold Execute. simpl. rewrite <- app_assoc. done.
Qed.

(** [setMultiPathRoute] past its test. *)
Lemma setMultiPathRoute_replace paths sp nhs msgs o :
  Forall2 (λ p nh, nextHop p = inr nh) paths nhs →
  kernel (conn sp) (executed (conn sp)) dump_request = inr msgs →
  firstMine sp msgs = inr o →
  same_multipath o (list_to_set nhs) = false →
  setMultiPathRoute paths sp
  = match buildNextHops (elements (list_to_set nhs : gset string)) [] with
    | inl err => (Some err, after_dump sp)
    | inr hops =>
        (reply_error
           (kernel (conn sp) (executed (conn sp) ++ [dump_request])
                   (replace_request sp IP_nil (Some hops))),
         set_conn sp
           {| executed := executed (conn sp)
                          ++ [dump_request;
                              replace_request sp IP_nil (Some hops)];
              kernel := kernel (conn sp) |})
    end.
Proof.
  intros Hall Hk Hmine Htest. unfold setMultiPathRoute.
  rewrite (collectNextHops_inr _ nhs) by done.
  rewrite (right_id_L ∅ (∪)).
  rewrite getLinuxBGPDefaultRoute_eq, Hk, Hmine.
  unfold same_multipath in Htest. rewrite Htest.
  destruct (buildNextHops _ _) as [err|hops]; [done|].
  simpl. unfold Execute. simpl. rewrite <- app_assoc. done.
Qed.

(** One tick on a table with exactly one default destination whose
    paths all carry a next hop, when the listing and the dump succeed. *)
Lemma setDefaultRoute_one_destination sp d msgs o nhs :
  answer (s sp) (history (s sp)) list_request = None →
  defaultRoutes_of sp = [d] →
  kernel (conn sp) (executed (conn sp)) dump_request = inr msgs →
  firstMine sp msgs = inr o →
  Forall2 (λ p nh, nextHop p = inr nh) (Paths d) nhs →
  (∀ old, o = Some old → ¬ agree d old) →
  ∃ sp1,
    conn sp1 = conn sp ∧ linuxRouteMetric sp1 = linuxRouteMetric sp ∧
    setDefaultRoute sp
    = match nhs with
      | [nh] =>
          if is_ipv4 nh then
            (reply_error
               (kernel (conn sp) (executed (conn sp) ++ [dump_request])
                       (replace_request sp (ParseIP nh) None)),
             set_conn sp1
               {| executed := executed (conn sp)
                              ++ [dump_request;
                                  replace_request sp (ParseIP nh) None];
                  kernel := kernel (conn sp) |})
          else (Some (Wrapf "gateway is not ipv4" ErrUnsupported),
                after_dump sp1)
      | _ =>
          match buildNextHops (elements (list_to_set nhs : gset string)) [] with
          | inl err => (Some err, after_dump sp1)
          | inr hops =>
              (reply_error
                 (kernel (conn sp) (executed (conn sp) ++ [dump_request])
                         (replace_request sp IP_nil (Some hops))),
               set_conn sp1
                 {| executed := executed (conn sp)
                                ++ [dump_request;
                                    replace_request sp IP_nil (Some hops)];
                    kernel := kernel (conn sp) |})
          end
      end.
Proof.
  intros Hlist Hd Hk Hmine Hall Hnot.
  rewrite setDefaultRoute_eq, bgp_eq, Hlist, Hd.
  set (sp1 := set_s sp _). exists sp1. split; [done|]. split; [done|].
  assert (Hk1 : kernel (conn sp1) (executed (conn sp1)) dump_request
                = inr msgs) by exact Hk.
  assert (Hmine1 : firstMine sp1 msgs = inr o)
    by (by rewrite (firstMine_metric sp1 sp)).
  assert (Htest : match nhs with
                  | [nh] => same_gateway o nh = false
                  | _ => same_multipath o (list_to_set nhs) = false
                  end).
  { destruct o as [old|].
    - specialize (Hnot old eq_refl).
      rewrite (agree_iff_tests d old nhs Hall) in Hnot.
      destruct nhs as [|nh [|nh' nhs]]; by apply not_true_is_false.
    - by destruct nhs as [|nh [|nh' nhs]]. }
  destruct Hall as [|p nh paths nhs Hnh Hrest].
  - by rewrite (setMultiPathRoute_replace [] sp1 [] msgs o).
  - destruct Hrest as [|p' nh' paths' nhs' Hnh' Hrest'].
    + by rewrite (setSinglePathRoute_replace p sp1 nh msgs o).
    + rewrite (setMultiPathRoute_replace (p :: p' :: paths') sp1
                 (nh :: nh' :: nhs') msgs o); try done.
      by repeat constructor.
Qed.

End ReconcilerReplace.


Section ReconcilerExtras.
Context `{GoNet}.

Lemma elements_ipv4 (nhs : list string) :
  Forall (λ nh, is_ipv4 nh = true) nhs →
  Forall (λ nh, is_ipv4 nh = true) (elements (list_to_set nhs : gset string)).
Proof.
  rewrite !Forall_forall. intros Hall nh Hin.
  apply Hall. by apply elem_of_elements, elem_of_list_to_set in Hin.
Qed.

Lemma elements_not_ipv4 (nhs : list string) :
  Exists (λ nh, is_ipv4 nh = false) nhs →
  Exists (λ nh, is_ipv4 nh = false) (elements (list_to_set nhs : gset string)).
Proof.
  rewrite !Exists_exists. intros (nh & Hin & Hnh). exists nh.
  split; [|done]. by apply elem_of_elements, elem_of_list_to_set.
Qed.

(** X8.  The tick replaces whenever the route is not as the RIB wants it:
    with one default destination, all next hops IPv4, and either no route
    of the speaker in the kernel or one that does not agree with the
    destination, [setDefaultRoute] executes, after the dump, exactly one
    NEWROUTE with the create-and-replace flags, carrying the speaker's
    tuple, and returns what the kernel answers to it.  For one path the
    message has the path's next hop as gateway and no multipath; otherwise
    it has no gateway and one hop per distinct next hop. *)
Theorem reconciler_replaces sp d msgs o nhs :
  answer (s sp) (history (s sp)) list_request = None →
  defaultRoutes_of sp = [d] →
  kernel (conn sp) (executed (conn sp)) dump_request = inr msgs →
  firstMine sp msgs = inr o →
  Forall2 (λ p nh, nextHop p = inr nh) (Paths d) nhs →
  (∀ old, o = Some old → ¬ agree d old) →
  Forall (λ nh, is_ipv4 nh = true) nhs →
  ∃ gw mp,
    installs nhs gw mp ∧
    executed (conn (setDefaultRoute sp).2)
    = executed (conn sp) ++ [dump_request; replace_request sp gw mp] ∧
    (setDefaultRoute sp).1
    = reply_error (kernel (conn sp) (executed (conn sp) ++ [dump_request])
                          (replace_request sp gw mp)).
Proof.
  intros Hlist Hd Hk Hmine Hall Hnot Hv4.
  destruct (setDefaultRoute_one_destination sp d msgs o nhs)
    as (sp1 & Hconn & Hmetric & ->); try done.
  assert (Hmulti :
    ∀ nhs' : list string,
      Forall (λ nh, is_ipv4 nh = true) nhs' →
      ∃ hops,
        buildNextHops (elements (list_to_set nhs' : gset string)) []
        = inr hops ∧
        length hops = size (list_to_set nhs' : gset string) ∧
        nh_Gateway <$> hops
        ≡ₚ ParseIP <$> elements (list_to_set nhs' : gset string)).
  { intros nhs' Hv4'. eexists. split.
    - apply buildNextHops_ok, elements_ipv4, Hv4'.
    - simpl. rewrite length_fmap. split; [done|].
      by rewrite <- list_fmap_compose. }
  unfold installs.
  destruct nhs as [|nh [|nh' nhs]].
  - destruct (Hmulti [] Hv4) as (hops & -> & Hlen & Hperm).
    exists IP_nil, (Some hops). repeat split; eauto.
  - pose proof (Forall_inv Hv4) as Hnh. simpl in Hnh. rewrite Hnh.
    exists (ParseIP nh), None. done.
  - destruct (Hmulti _ Hv4) as (hops & -> & Hlen & Hperm).
    exists IP_nil, (Some hops). repeat split; eauto.
Qed.

(** X9.  A next hop that is not an IPv4 address stops the replacement as
    a whole: under the conditions of the replacement, if some next hop of
    the destination does not parse as IPv4, [setDefaultRoute] returns an
    error that wraps [ErrUnsupported] and executes nothing but the dump,
    also when other next hops of a multipath destination are valid. *)
Theorem reconciler_rejects_non_ipv4 sp d msgs o nhs :
  answer (s sp) (history (s sp)) list_request = None →
  defaultRoutes_of sp = [d] →
  kernel (conn sp) (executed (conn sp)) dump_request = inr msgs →
  firstMine sp msgs = inr o →
  Forall2 (λ p nh, nextHop p = inr nh) (Paths d) nhs →
  (∀ old, o = Some old → ¬ agree d old) →
  Exists (λ nh, is_ipv4 nh = false) nhs →
  (setDefaultRoute sp).1 = Some (Wrapf "gateway is not ipv4" ErrUnsupported) ∧
  executed (conn (setDefaultRoute sp).2) = executed (conn sp) ++ [dump_request].
Proof.
  intros Hlist Hd Hk Hmine Hall Hnot Hex.
  destruct (setDefaultRoute_one_destination sp d msgs o nhs)
    as (sp1 & Hconn & Hmetric & ->); try done.
  destruct nhs as [|nh [|nh' nhs]].
  - by apply Exists_nil in Hex.
  - apply Exists_cons in Hex as [Hnh|Hex]; [|by apply Exists_nil in Hex].
    rewrite Hnh. simpl. by rewrite Hconn.
  - rewrite (buildNextHops_err _ []) by (by apply elements_not_ipv4).
    simpl. by rewrite Hconn.
Qed.

(** X10.  What a tick installs passes the next tick's test: when the next
    hops of the destination print as they parse
    ([ParseIP(nh).String() = nh]), the route message a replacing tick
    sends satisfies [linuxRouteIsMine] and agrees with the destination, so
    a kernel that reports this message back makes the following tick a
    no-op. *)
Theorem installed_route_agrees sp d nhs gw mp :
  Forall2 (λ p nh, nextHop p = inr nh) (Paths d) nhs →
  Forall (λ nh, IP_String (ParseIP nh) = nh) nhs →
  installs nhs gw mp →
  linuxRouteIsMine sp (own_route sp gw mp) = true ∧
  agree d (own_route sp gw mp).
Proof.
  intros Hall Hcanon Hinst.
  split; [by apply linuxRouteIsMine_true|].
  apply (agree_iff_tests d _ nhs Hall).
  assert (Hmulti :
    gw = IP_nil ∧
    (∃ hops, mp = Some hops ∧
             length hops = size (list_to_set nhs : gset string) ∧
             nh_Gateway <$> hops
             ≡ₚ ParseIP <$> elements (list_to_set nhs : gset string)) →
    same_multipath (Some (own_route sp gw mp)) (list_to_set nhs) = true).
  { intros (-> & hops & -> & Hlen & Hperm). unfold same_multipath. simpl.
    apply andb_true_iff. split; [by apply bool_decide_eq_true|].
    apply routesAreEqual_iff. intros hop Hhop.
    assert (Hgw : nh_Gateway hop ∈ nh_Gateway <$> hops)
      by (by apply list_elem_of_fmap_2).
    rewrite Hperm in Hgw.
    apply list_elem_of_fmap in Hgw as (nh & -> & Hnh).
    apply elem_of_elements in Hnh.
    assert (Hin : nh ∈ nhs) by (by apply elem_of_list_to_set in Hnh).
    rewrite Forall_forall in Hcanon. by rewrite (Hcanon nh Hin). }
  unfold installs in Hinst.
  destruct nhs as [|nh [|nh' nhs]]; [by apply Hmulti| |by apply Hmulti].
  destruct Hinst as [-> ->]. pose proof (Forall_inv Hcanon) as Hnh.
  unfold same_gateway. simpl. by apply bool_decide_eq_true.
Qed.


Lemma UpdateFIB_loop_ticks n evs sp :
  UpdateFIB_loop (replicate n FibTick ++ evs) sp
  = UpdateFIB_loop evs (after_ticks n sp).
Proof. revert sp. induction n as [|n IH]; intros sp; simpl; [done|apply IH]. Qed.

Lemma fib_events_split evs :
  (∃ n, evs = replicate n FibTick) ∨
  (∃ n post, evs = replicate n FibTick ++ FibDone :: post).
Proof.
  induction evs as [|[|] evs IH].
  - left. by exists 0%nat.
  - right. by exists 0%nat, evs.
  - destruct IH as [[n ->]|(n & post & ->)].
    + left. by exists (S n).
    + right. by exists (S n), post.
Qed.

(** X12.  The loop of [UpdateFIB] ends only on cancellation: an error of
    a tick never ends it (after [n] ticks it is still waiting, whatever
    the ticks returned), and on cancellation it returns what
    [cleanupDefaultRoute] returns on the speaker as the ticks left it;
    what is delivered after the cancellation has no effect. *)
Theorem UpdateFIB_ends_on_cancel_only evs sp :
  (∃ n, evs = replicate n FibTick ∧
        UpdateFIB_loop evs sp = (None, after_ticks n sp)) ∨
  (∃ n post, evs = replicate n FibTick ++ FibDone :: post ∧
             UpdateFIB_loop evs sp
             = (Some (cleanupDefaultRoute (after_ticks n sp)).1,
                (cleanupDefaultRoute (after_ticks n sp)).2)).
Proof.
  destruct (fib_events_split evs) as [[n ->]|(n & post & ->)].
  - left. exists n. split; [done|].
    rewrite <- (app_nil_r (replicate n FibTick)) at 1.
    by rewrite UpdateFIB_loop_ticks.
  - right. exists n, post. split; [done|].
    rewrite UpdateFIB_loop_ticks. simpl.
    by destruct (cleanupDefaultRoute (after_ticks n sp)).
Qed.

End ReconcilerExtras.


(** ** More on the controller *)

Section ControllerExtras.
Context `{GoNet}.

Lemma well_scoped_prefix sets pols l1 l2 :
  well_scoped sets pols (l1 ++ l2) = true → well_scoped sets pols l1 = true.
Proof.
  revert sets pols. induction l1 as [|r l1 IH]; intros sets pols; [done|].
  destruct r; simpl; try apply IH.
  - intros [Hrefs Hrest]%andb_true_iff. rewrite Hrefs. simpl. by eapply IH.
  - intros [Hrefs Hrest]%andb_true_iff. rewrite Hrefs. simpl. by eapply IH.
Qed.

Lemma setupPolicies_script_well_scoped c :
  well_scoped [] [] (setupPolicies_script c).*1 = true.
Proof. reflexivity. Qed.

(** X13.  The requests of [setupPolicies] are sent in dependency order:
    whether it succeeds or stops at an error, every policy it adds refers
    only to defined sets it has added before (a prefix-set condition to a
    set of type PREFIX, a neighbor-set condition to one of type
    NEIGHBOR), and every policy assignment lists only policies it has
    added before. *)
Theorem setupPolicies_well_scoped sp :
  ∃ new,
    history (s (setupPolicies sp).2) = history (s sp) ++ new ∧
    well_scoped [] [] new = true.
Proof.
  rewrite setupPolicies_eq_run_script.
  pose proof (run_script_trace (setupPolicies_script (config sp)) sp)
    as (_ & _ & _ & _ & Htr).
  pose proof (setupPolicies_script_well_scoped (config sp)) as Hws.
  destruct (run_script (setupPolicies_script (config sp)) sp).1 as [e|].
  - destruct Htr as (sc1 & r & w & sc2 & e0 & Hsc & Hh & _).
    exists (sc1.*1 ++ [r]). split; [done|].
    rewrite Hsc, fmap_app, fmap_cons in Hws. simpl fst in Hws.
    apply (well_scoped_prefix _ _ _ sc2.*1).
    by rewrite <- app_assoc.
  - destruct Htr as [Hh _]. by exists (setupPolicies_script (config sp)).*1.
Qed.

Lemma added_peers_app l1 l2 :
  added_peers (l1 ++ l2) = added_peers l1 ++ added_peers l2.
Proof. apply omap_app. Qed.

Lemma added_peers_script ns :
  added_peers ((λ n, (AddPeer (Address n) (PeerASN n), as_is)) <$> ns).*1
  = Address <$> ns.
Proof. induction ns as [|n ns IH]; [done|]. simpl. f_equal. apply IH. Qed.

Lemma addNeighbors_eq_run_script sp :
  addNeighbors sp = run_script (addNeighbors_script (config sp)) sp.
Proof. apply scripted_addNeighbors. Qed.

(** X14.  [addNeighbors] adds the configured neighbors as peers in the
    order of the configuration, one request each, and stops at the first
    one the server refuses: when it returns nil the peers added are
    exactly the configured addresses, which are also, each followed by
    [/32], the members of the [uplinks] neighbor set of the policies; when
    it returns an error the peers requested are an initial segment of
    them, the last being the refused one. *)
Theorem addNeighbors_adds_configured_peers sp :
  match (addNeighbors sp).1 with
  | None =>
      added_peers (history (s (addNeighbors sp).2))
      = added_peers (history (s sp)) ++ (Address <$> Neighbors (config sp)) ∧
      ds_List (neighborSet (config sp))
      = slash32 <$> (Address <$> Neighbors (config sp))
  | Some e =>
      ∃ (k : nat) n,
        Neighbors (config sp) !! k = Some n ∧
        added_peers (history (s (addNeighbors sp).2))
        = added_peers (history (s sp))
          ++ (Address <$> take (S k) (Neighbors (config sp))) ∧
        answer (s sp)
               (history (s sp)
                ++ ((λ n, AddPeer (Address n) (PeerASN n))
                      <$> take k (Neighbors (config sp))))
               (AddPeer (Address n) (PeerASN n)) = Some e
  end.
Proof.
  rewrite addNeighbors_eq_run_script.
  pose proof (run_script_trace (addNeighbors_script (config sp)) sp)
    as (_ & _ & _ & _ & Htr).
  unfold addNeighbors_script in *.
  destruct (run_script _ sp).1 as [e|].
  - destruct Htr as (sc1 & r & w & sc2 & e0 & Hsc & Hh & _ & Ha & ->).
    apply fmap_app_inv in Hsc as (ns1 & ns2' & Hsc1 & Hsc2 & Hns).
    symmetry in Hsc2.
    apply fmap_cons_inv in Hsc2 as (n & ns2 & [= -> ->] & _ & ->).
    exists (length ns1), n. rewrite Hns in Hh |- *.
    split; [by rewrite list_lookup_middle|].
    assert (Hsc1' : sc1.*1 = (λ n, AddPeer (Address n) (PeerASN n)) <$> ns1)
      by (by rewrite Hsc1, <- list_fmap_compose).
    split.
    + rewrite Hh, added_peers_app. f_equal.
      replace (S (length ns1)) with (length (ns1 ++ [n]))
        by (rewrite length_app; simpl; lia).
      rewrite (cons_middle n ns1 ns2), app_assoc, take_app_length.
      rewrite <- (added_peers_script (ns1 ++ [n])).
      rewrite !fmap_app, <- Hsc1. done.
    + rewrite take_app_length, <- Hsc1'. exact Ha.
  - destruct Htr as [Hh _]. split.
    + by rewrite Hh, added_peers_app, added_peers_script.
    + unfold neighborSet. simpl. by rewrite <- list_fmap_compose.
Qed.

End ControllerExtras.


(** ** The log level *)

Lemma LogLevel_Levels_elem s :
  s ∈ LogLevel_Levels ↔
  s = "panic" ∨ s = "fatal" ∨ s = "error" ∨ s = "warn" ∨ s = "info" ∨
  s = "debug" ∨ s = "trace".
Proof.
  unfold LogLevel_Levels, Panic, Fatal, Error, Warn, Info, Debug, Trace.
  rewrite !elem_of_union, !elem_of_singleton. tauto.
Qed.

(** X15.  [Set] accepts exactly the seven level names; when it accepts,
    the level becomes the given text, so that [String] returns it; when it
    refuses, it returns an error and leaves the level as it was. *)
Theorem LogLevel_Set_accepts_the_seven_names l s :
  ((LogLevel_Set l s).2 = None ↔
   s = "panic" ∨ s = "fatal" ∨ s = "error" ∨ s = "warn" ∨ s = "info" ∨
   s = "debug" ∨ s = "trace") ∧
  ((LogLevel_Set l s).2 = None → LogLevel_String (LogLevel_Set l s).1 = s) ∧
  ((LogLevel_Set l s).2 ≠ None → (LogLevel_Set l s).1 = l).
Proof.
  rewrite <- LogLevel_Levels_elem. unfold LogLevel_Set, LogLevel_String.
  destruct (decide (s ∈ LogLevel_Levels)); simpl.
  - repeat split; done.
  - repeat split; done.
Qed.

(** X16.  [LrLevel] maps the seven level names to seven different logrus
    levels, and every other value of the level, the empty one of a flag
    that was not given included, to [InfoLevel]. *)
Theorem LogLevel_LrLevel_injective_on_names :
  (∀ l, l ∉ LogLevel_Levels → LogLevel_LrLevel l = InfoLevel) ∧
  LogLevel_LrLevel "" = InfoLevel ∧
  (∀ l1 l2, l1 ∈ LogLevel_Levels → l2 ∈ LogLevel_Levels →
            LogLevel_LrLevel l1 = LogLevel_LrLevel l2 → l1 = l2).
Proof.
  split; [|split; [done|]].
  - intros l Hl. rewrite LogLevel_Levels_elem in Hl.
    unfold LogLevel_LrLevel, Panic, Fatal, Error, Warn, Info, Debug, Trace.
    repeat case_decide; try done; subst; exfalso; apply Hl; tauto.
  - intros l1 l2 H1 H2.
    apply LogLevel_Levels_elem in H1. apply LogLevel_Levels_elem in H2.
    destruct H1 as [->|[->|[->|[->|[->|[->| ->]]]]]];
      destruct H2 as [->|[->|[->|[->|[->|[->| ->]]]]]];
      vm_compute; congruence.
Qed.

(** ** The routes set by hand *)

Lemma Split_comma_not_nil s : Split_comma s ≠ [].
Proof.
  destruct s as [|c rest]; simpl; [done|].
  destruct (Ascii.eqb c ","); [done|]. by destruct (Split_comma rest).
Qed.

(** Joining the fields with commas gives the text back. *)
Lemma Split_comma_concat s : String.concat "," (Split_comma s) = s.
Proof.
  induction s as [|c rest IH]; [done|]. simpl.
  destruct (Ascii.eqb c ",") eqn:Hc.
  - apply Ascii.eqb_eq in Hc as ->.
    pose proof (Split_comma_not_nil rest) as Hne.
    destruct (Split_comma rest) as [|f fs]; [done|].
    simpl in *. by rewrite IH.
  - pose proof (Split_comma_not_nil rest) as Hne.
    destruct (Split_comma rest) as [|f fs]; [done|].
    simpl in *. destruct fs; simpl in *; by rewrite <- IH.
Qed.

Lemma Split_comma_Contains s :
  if Contains_comma s then (2 ≤ length (Split_comma s))%nat
  else Split_comma s = [s].
Proof.
  induction s as [|c rest IH]; [done|]. simpl.
  pose proof (Split_comma_not_nil rest) as Hne.
  destruct (Ascii.eqb c ","); simpl.
  - destruct (Split_comma rest); [done|]. simpl. lia.
  - destruct (Contains_comma rest).
    + destruct (Split_comma rest) as [|f fs]; [done|]. exact IH.
    + by rewrite IH.
Qed.

Section NetlinkPackageProps.
Context `{GoNet}.

(** X17.  [SetDefaultRoute] executes one NEWROUTE with the
    create-and-replace flags and returns the kernel's error; the text of
    the gateways is cut at the commas (joining the fields with commas
    gives the text back), a text without comma gives a message with that
    gateway, and a text with commas gives a multipath message with one hop
    per field, in the order of the text.  Each gateway is what [ParseIP]
    returns, nil included: no field is ever refused.  When the dial
    failed, nothing is executed and its error is returned. *)
Theorem SetDefaultRoute_one_hop_per_field c gateway :
  (∃ gw mp,
     let r := {| req_message := manual_route gw mp; req_type := newRoute;
                 req_flags := replaceFlags |} in
     SetDefaultRoute (inr c) gateway
     = (reply_error (kernel c (executed c) r),
        Some {| executed := executed c ++ [r]; kernel := kernel c |}) ∧
     match Split_comma gateway with
     | [field] => field = gateway ∧ gw = ParseIP gateway ∧ mp = None
     | fields =>
         gw = IP_nil ∧
         mp = Some ((λ field, {| nh_Gateway := ParseIP field |}) <$> fields)
     end) ∧
  String.concat "," (Split_comma gateway) = gateway ∧
  (∀ err, SetDefaultRoute (inl err) gateway = (Some err, None)).
Proof.
  split; [|split; [apply Split_comma_concat|]].
  - unfold SetDefaultRoute.
    pose proof (Split_comma_Contains gateway) as Hsplit.
    destruct (Contains_comma gateway).
    + exists IP_nil,
        (Some ((λ field, {| nh_Gateway := ParseIP field |})
                 <$> Split_comma gateway)).
      split.
      * unfold setMultipathDefaultRoute, Execute. simpl.
        by rewrite <- list_fmap_compose.
      * destruct (Split_comma gateway) as [|f1 [|f2 fs]];
          simpl in Hsplit; [lia|lia|done].
    + exists (ParseIP gateway), None. rewrite Hsplit. done.
  - intros err. unfold SetDefaultRoute.
    by destruct (Contains_comma gateway).
Qed.

(** X18.  The route messages of the package carry the reconciler's tuple
    with priority 50: the request [SetDefaultRoute] executes and the one
    [DeleteDefaultRoute] executes have a message that satisfies the
    reconciler's [linuxRouteIsMine] exactly when the speaker's metric is
    50, so the reconciler takes a route set by hand for its own only under
    that metric. *)
Theorem manual_route_is_mine_iff_metric_50 sp c gateway c' e :
  SetDefaultRoute (inr c) gateway = (e, Some c') ∨
  DeleteDefaultRoute (inr c) = (e, Some c') →
  ∃ r, executed c' = executed c ++ [r] ∧
       (linuxRouteIsMine sp (req_message r) = true ↔
        linuxRouteMetric sp = routePriority).
Proof.
  assert (Hmine : ∀ gw mp,
            linuxRouteIsMine sp (manual_route gw mp) = true ↔
            linuxRouteMetric sp = routePriority).
  { intros gw mp. rewrite linuxRouteIsMine_true. simpl.
    unfold familyAfInet, rtTableMain, protoBgp, typeUnicast. intuition. }
  intros [Hset|Hdel].
  - unfold SetDefaultRoute, setMultipathDefaultRoute,
      setSinglepathDefaultRoute, Execute in Hset.
    destruct (Contains_comma gateway); simpl in Hset;
      injection Hset as _ <-; eexists; (split; [done|]); apply Hmine.
  - unfold DeleteDefaultRoute, Execute in Hdel. simpl in Hdel.
    injection Hdel as _ <-. eexists. split; [done|]. apply Hmine.
Qed.

End NetlinkPackageProps.


(** ** The properties at the sample speakers *)

Import IPv4.

Lemma reconciler_noop_witness :
  ((setDefaultRoute Sample.sp_single).1 = None ∧
   executed (conn (setDefaultRoute Sample.sp_single).2)
   = executed (conn Sample.sp_single) ++ [dump_request] ∧
   mutations (executed (conn (setDefaultRoute Sample.sp_single).2))
   = mutations (executed (conn Sample.sp_single))) ∧
  ((setDefaultRoute Sample.sp_multi).1 = None ∧
   executed (conn (setDefaultRoute Sample.sp_multi).2)
   = executed (conn Sample.sp_multi) ++ [dump_request] ∧
   mutations (executed (conn (setDefaultRoute Sample.sp_multi).2))
   = mutations (executed (conn Sample.sp_multi))).
Proof.
  split.
  - apply (reconciler_noop Sample.sp_single
             (Sample.default_via ["10.1.0.1"])
             [Sample.msg_other_table; msg_route Sample.single_route]
             Sample.single_route); reflexivity.
  - apply (reconciler_noop Sample.sp_multi
             (Sample.default_via ["10.1.0.1"; "10.2.0.1"; "10.1.0.1"])
             [Sample.msg_other_table; msg_route Sample.multi_route]
             Sample.multi_route); try reflexivity.
    exists ["10.1.0.1"; "10.2.0.1"; "10.1.0.1"], Sample.multi_hops.
    split; [repeat constructor|].
    split; [reflexivity|].
    split; [vm_compute; reflexivity|].
    apply Forall_forall. repeat constructor; vm_compute; set_solver.
Defined.

Lemma setDefaultRoute_zero_or_many_witness :
  ((setDefaultRoute Sample.sp_none).1
   = Wrapf "bgp list path error"
     <$> answer (s Sample.sp_none) (history (s Sample.sp_none)) list_request ∧
   ((setDefaultRoute Sample.sp_none).1 = None ↔
    answer (s Sample.sp_none) (history (s Sample.sp_none)) list_request
    = None) ∧
   conn (setDefaultRoute Sample.sp_none).2 = conn Sample.sp_none) ∧
  (is_Some (setDefaultRoute Sample.sp_two).1 ∧
   conn (setDefaultRoute Sample.sp_two).2 = conn Sample.sp_two).
Proof.
  split.
  - apply (setDefaultRoute_zero_or_many Sample.sp_none); reflexivity.
  - apply (setDefaultRoute_zero_or_many Sample.sp_two).
    vm_compute. lia.
Defined.

(** C6, as the spec states it, fails: with no default destination in the
    table and a listing that fails, the tick returns the listing's
    error, not nil. *)
Lemma setDefaultRoute_list_error_without_default :
  defaultRoutes_of Sample.sp_list_fails = [] ∧
  (setDefaultRoute Sample.sp_list_fails).1
  = Some (Wrapf "bgp list path error" (Errorf "rpc error")) ∧
  ¬ ((setDefaultRoute Sample.sp_list_fails).1 = None).
Proof. split; [reflexivity|]. split; [reflexivity|discriminate]. Qed.


Lemma successes_counted_across_failures_witness :
  (Run_loop (Tick <$> [ok_tick; failed_probe; ok_tick; failed_probe; ok_tick])
            hc0).1
  = ({| status := Unhealthy; u := u hc0;
        okCounter :=
          Z.of_nat (successes [ok_tick; failed_probe; ok_tick; failed_probe;
                               ok_tick]) |},
     replicate
       (length [ok_tick; failed_probe; ok_tick; failed_probe; ok_tick]) []) ∧
  (successes [ok_tick; failed_probe; ok_tick; failed_probe; ok_tick] = 3%nat →
   probe ok_tick = None →
   (tick ok_tick
         (Run_loop (Tick <$> [ok_tick; failed_probe; ok_tick; failed_probe;
                              ok_tick]) hc0).1.1).2
   = [cbHealthy]).
Proof.
  apply (successes_counted_across_failures (inr (u hc0)) hc0
           [ok_tick; failed_probe; ok_tick; failed_probe; ok_tick] ok_tick).
  - reflexivity.
  - vm_compute. lia.
Defined.

Lemma failed_callback_is_retried_witness :
  (Run_loop (Tick <$> replicate 3 Sample.callback_fails) (after_ok_ticks 3)).1
  = (after_ok_ticks 3,
     replicate (length (replicate 3 Sample.callback_fails)) [cbHealthy]).
Proof.
  apply (failed_callback_is_retried (replicate 3 Sample.callback_fails)
           (after_ok_ticks 3) cbHealthy).
  repeat constructor; discriminate.
Defined.

Lemma getLinuxBGPDefaultRoute_first_match_witness :
  (getLinuxBGPDefaultRoute Sample.sp_single).2 = after_dump Sample.sp_single ∧
  match (getLinuxBGPDefaultRoute Sample.sp_single).1 with
  | inr (Some old) =>
      ∃ pre post,
        [Sample.msg_other_table; msg_route Sample.single_route]
        = (msg_route <$> pre) ++ msg_route old :: post ∧
        Forall (λ r, linuxRouteIsMine Sample.sp_single r = false) pre ∧
        linuxRouteIsMine Sample.sp_single old = true
  | inr None =>
      ∃ routes,
        [Sample.msg_other_table; msg_route Sample.single_route]
        = msg_route <$> routes ∧
        Forall (λ r, linuxRouteIsMine Sample.sp_single r = false) routes
  | inl err =>
      root_cause err = ErrUnsupported ∧
      ∃ pre post,
        [Sample.msg_other_table; msg_route Sample.single_route]
        = (msg_route <$> pre) ++ msg_other :: post ∧
        Forall (λ r, linuxRouteIsMine Sample.sp_single r = false) pre
  end.
Proof.
  apply (getLinuxBGPDefaultRoute_first_match Sample.sp_single
           [Sample.msg_other_table; msg_route Sample.single_route]).
  reflexivity.
Defined.

Lemma agree_single_inv d old nh :
  Paths d = [Sample.path_via nh] → agree d old →
  IP_String (Gateway (Attributes old)) = nh.
Proof. unfold agree. intros ->. by intros [= ->]. Qed.

Lemma reconciler_replaces_witness :
  ∃ gw mp,
    installs ["10.2.0.1"] gw mp ∧
    executed (conn (setDefaultRoute Sample.sp_moved).2)
    = executed (conn Sample.sp_moved)
      ++ [dump_request; replace_request Sample.sp_moved gw mp] ∧
    (setDefaultRoute Sample.sp_moved).1
    = reply_error
        (kernel (conn Sample.sp_moved)
                (executed (conn Sample.sp_moved) ++ [dump_request])
                (replace_request Sample.sp_moved gw mp)).
Proof.
  apply (reconciler_replaces Sample.sp_moved
           (Sample.default_via ["10.2.0.1"])
           [Sample.msg_other_table; msg_route Sample.single_route]
           (Some Sample.single_route) ["10.2.0.1"]).
  - reflexivity.
  - reflexivity.
  - reflexivity.
  - reflexivity.
  - repeat constructor.
  - intros old [= <-] Hagree.
    apply (agree_single_inv (Sample.default_via ["10.2.0.1"]) _ "10.2.0.1"
             eq_refl) in Hagree.
    vm_compute in Hagree. discriminate Hagree.
  - repeat constructor.
Defined.

Lemma reconciler_rejects_non_ipv4_witness :
  (setDefaultRoute Sample.sp_v6).1
  = Some (Wrapf "gateway is not ipv4" ErrUnsupported) ∧
  executed (conn (setDefaultRoute Sample.sp_v6).2)
  = executed (conn Sample.sp_v6) ++ [dump_request].
Proof.
  apply (reconciler_rejects_non_ipv4 Sample.sp_v6
           (Sample.default_via ["10.1.0.1"; "fe80::1"])
           [msg_route Sample.single_route]
           (Some Sample.single_route) ["10.1.0.1"; "fe80::1"]).
  - reflexivity.
  - reflexivity.
  - reflexivity.
  - reflexivity.
  - repeat constructor.
  - intros old [= <-] (nhs & mp & _ & Hmp & _). discriminate Hmp.
  - apply Exists_cons_tl, Exists_cons_hd. reflexivity.
Defined.

Lemma installed_route_agrees_witness :
  linuxRouteIsMine Sample.sp_grown
    (own_route Sample.sp_grown IP_nil (Some Sample.grown_hops)) = true ∧
  agree (Sample.default_via ["10.1.0.1"; "10.2.0.1"])
        (own_route Sample.sp_grown IP_nil (Some Sample.grown_hops)).
Proof.
  apply (installed_route_agrees Sample.sp_grown
           (Sample.default_via ["10.1.0.1"; "10.2.0.1"])
           ["10.1.0.1"; "10.2.0.1"] IP_nil (Some Sample.grown_hops)).
  - repeat constructor.
  - repeat constructor.
  - split; [reflexivity|].
    exists Sample.grown_hops. split; [reflexivity|].
    split; [vm_compute; reflexivity|].
    unfold Sample.grown_hops. by rewrite <- list_fmap_compose.
Defined.


Lemma manual_route_is_mine_iff_metric_50_witness :
  ∃ r,
    executed {| executed := [] ++ [ {| req_message := manual_route [] None;
                                       req_type := deleteRoute;
                                       req_flags := 5 |} ];
                kernel := λ _ _, inr [] |}
    = executed (Sample.fresh_conn []) ++ [r] ∧
    (linuxRouteIsMine Sample.sp_single (req_message r) = true ↔
     linuxRouteMetric Sample.sp_single = routePriority).
Proof.
  apply (manual_route_is_mine_iff_metric_50 Sample.sp_single
           (Sample.fresh_conn []) "" _ None).
  right. reflexivity.
Defined.
